(** * recsys: the training notebook [train.ipynb]

    A shallow embedding of the notebook's own code: the configuration class
    [Params], the wrapper [RecommenderModule] with its [training_step] and
    [eval_step], the driver cell and the notebook-level
    [get_feature_embeddings].

    Tensors of floats are lists over an abstract type of scores that carries
    a total preorder (floats without NaN); categorical ids are naturals; the
    numpy tables of [eval_step] are lists of rows of integers (the float64
    cells only ever receive top-k indices, which float64 holds exactly, or
    whatever [np.empty] left in them).  The functions imported from
    [metrics], [sklearn] and [torch.nn] are parameters. *)

From Stdlib Require Import ZArith QArith String.
From stdpp Require Import base option list sorting gmap.

Open Scope nat_scope.

(** ** Scores *)

(** The scalar type of prediction and rating tensors.  [sle] is the order
    [torch.topk] ranks by. *)
Class Score (F : Type) := {
  sle : F → F → bool;
  sle_total : ∀ x y, sle x y = true ∨ sle y x = true;
  sle_trans : ∀ x y z, sle x y = true → sle y z = true → sle x z = true
}.

(** ** Exceptions *)

Inductive exn :=
| IndexError                      (* features[:, i] on a missing column, embedding id out of range *)
| KeyError (key : string)         (* emb_dict[feature_name] *)
| RuntimeError_max_empty          (* users.max() on an empty tensor *)
| RuntimeError_topk               (* torch.topk with k larger than the tensor *)
| RuntimeError_stack              (* torch.stack on an empty list or on unequal shapes *)
| RuntimeError_view               (* tensor.view with an incompatible shape *)
| ValueError                      (* a sampler or an optimizer refusing its arguments *)
| UnboundLocalError (var : string).

(** [UnboundLocalError] is a subclass of [NameError]. *)
Definition is_NameError (e : exn) : bool :=
  match e with UnboundLocalError _ => true | _ => false end.

(** ** Enumerations imported from [dataset] and [models]

    The notebook names the members below; [Other_*] stands for any further
    member of the IntEnum. *)

Inductive RatingFormat := BINARY | RATING | Other_RatingFormat (tag : nat).
Inductive ModelArchitecture := MATRIX_FACTORIZATION | Other_ModelArchitecture (tag : nat).
Inductive DatasetSource := MOVIELENS | Other_DatasetSource (tag : nat).

#[export] Instance RatingFormat_eq_dec : EqDecision RatingFormat.
Proof. solve_decision. Defined.
#[export] Instance ModelArchitecture_eq_dec : EqDecision ModelArchitecture.
Proof. solve_decision. Defined.

(** ** class Params *)

Record Params := {
  learning_rate : Q;
  weight_decay : Q;
  embedding_dim : nat;
  dropout : Q;
  batch_size : nat;
  eval_size : nat;
  max_rows : nat;
  model_architecture : ModelArchitecture;
  dataset_source : DatasetSource;
  rating_format : RatingFormat;
  max_users : option nat;
  num_epochs : nat;
  do_eval : bool;
  eval_every : nat;
  max_batches : nat
}.

(** The class attributes as the notebook sets them. *)
Definition Params_defaults : Params := {|
  learning_rate := (5 # 1000)%Q;
  weight_decay := (1 # 100000)%Q;
  embedding_dim := 32;
  dropout := (2 # 10)%Q;
  batch_size := 32;
  eval_size := 100;
  max_rows := 1000;
  model_architecture := MATRIX_FACTORIZATION;
  dataset_source := MOVIELENS;
  rating_format := RATING;
  max_users := None;
  num_epochs := 100;
  do_eval := true;
  eval_every := 5;
  max_batches := 10
|}.

(** ** Batches and external functions *)

(** A feature tensor: one row of categorical ids per example. *)
Abbreviation Features := (list (list nat)).

(** [features[:, i]] *)
Definition column (i : nat) (features : Features) : exn + list nat :=
  match mapM (λ row : list nat, row !! i) features with
  | Some c => inr c
  | None => inl IndexError
  end.

(** A batch of the dataloader as the forward pass receives it; [eval_step]
    also calls the forward pass with [None] for the ratings. *)
Definition with_ratings {F} (batch : Features * list F) : Features * option (list F) :=
  (batch.1, Some batch.2).

(** The two losses [__init__] chooses from. *)
Inductive LossFn := BCELoss | MSELoss.

(** What the notebook imports and calls: the two [torch.nn] losses, the five
    functions of [metrics] and [sklearn.metrics.roc_auc_score].  [F] is the
    scalar of tensors, [M] the type of loss and metric values. *)
Class Externals (F M : Type) := {
  BCELoss_call : list F → list F → M;
  MSELoss_call : list F → list F → M;
  ndcg_score : list Z → list Z → M;
  novelty_score : list (list Z) → gmap nat nat → nat → nat → M;
  prediction_coverage_score : list (list Z) → list nat → M;
  catalog_coverage_score : list (list Z) → list nat → nat → M;
  personalization_score : list (list Z) → M;
  roc_auc_score : list bool → list bool → M
}.

Definition loss_call {F M} `{Externals F M} (l : LossFn) : list F → list F → M :=
  match l with BCELoss => BCELoss_call | MSELoss => MSELoss_call end.

(** ** class RecommenderModule *)

(** [recommender] is the forward pass of the wrapped [RecModel]: it takes a
    batch (features and, possibly, ratings) and returns one prediction per
    row ([.squeeze()] drops the trailing unit axis). *)
Record RecommenderModule (F : Type) := {
  recommender : Features * option (list F) → list F;
  loss_fn : LossFn;
  use_wandb : bool
}.
Arguments recommender {F}.
Arguments loss_fn {F}.
Arguments use_wandb {F}.

(** The conditional of [__init__]; it reads the class attributes of [Params]. *)
Definition select_loss (P : Params) : LossFn :=
  if bool_decide (rating_format P = BINARY)
     && bool_decide (model_architecture P ≠ MATRIX_FACTORIZATION)
  then BCELoss
  else MSELoss.

(** [RecommenderModule.__init__] *)
Definition RecommenderModule_init {F} (P : Params)
    (rec : Features * option (list F) → list F) (use_wandb : bool)
    : RecommenderModule F :=
  {| recommender := rec;
     loss_fn := select_loss P;
     use_wandb := use_wandb |}.

(** The dict logged by [eval_step]. *)
Record LogDict (M : Type) := {
  ld_eval_loss : M;
  ld_ndcg : M;
  ld_novelty : M;
  ld_prediction_coverage : M;
  ld_catalog_coverage : M;
  ld_personalization : M;
  ld_roc_auc : M
}.
Arguments Build_LogDict {M}.
Arguments ld_eval_loss {M}.
Arguments ld_ndcg {M}.
Arguments ld_novelty {M}.
Arguments ld_prediction_coverage {M}.
Arguments ld_catalog_coverage {M}.
Arguments ld_personalization {M}.
Arguments ld_roc_auc {M}.

(** What the two steps do to the outside, in order. *)
Inductive Event (M : Type) :=
| WandbLogTrain (train_loss : M)                                (* wandb.log({"train_loss": loss}) *)
| Display (user_id : nat) (top_k_preds true_top_k : list nat)   (* dataset.display_recommendation_output *)
| Print (log_dict : LogDict M)                                  (* print(log_dict) *)
| WandbLog (log_dict : LogDict M).                              (* wandb.log(log_dict) *)
Arguments WandbLogTrain {M}.
Arguments Display {M}.
Arguments Print {M}.
Arguments WandbLog {M}.

(** *** training_step *)

(** The returned loss and the events emitted. *)
Record TrainingResult (F M : Type) := {
  returned : M;
  emitted : list (Event M)
}.
Arguments returned {F M}.
Arguments emitted {F M}.

Definition training_step {F M} `{Externals F M}
    (self : RecommenderModule F) (batch : Features * list F) : TrainingResult F M :=
  let '(_, ratings) := batch in
  let preds := recommender self (with_ratings batch) in
  let loss := loss_call (loss_fn self) preds ratings in
  {| returned := loss;
     emitted := if use_wandb self then [WandbLogTrain loss] else [] |}.

(** Tensors are objects: a batch holds two references into the store of
    objects, and the method works on what they point to. *)
Inductive Object (F : Type) :=
| FeaturesTensor (features : Features)
| ScoresTensor (scores : list F).
Arguments FeaturesTensor {F}.
Arguments ScoresTensor {F}.

(** [training_step] on references.  The forward pass and the loss are taken
    to write to no tensor they are given: the forward pass returns a tensor
    of its own, stored at a fresh place, [.squeeze()] returns a view of it,
    and the loss reads the predictions and the ratings where they are at
    that moment.  [None] stands for a batch that is not a pair of a feature
    tensor and a ratings tensor. *)
Definition training_step_call {F M} `{Externals F M}
    (self : RecommenderModule F) (store : gmap nat (Object F)) (batch : nat * nat)
    : option (M * gmap nat (Object F) * list (Event M)) :=
  match store !! batch.1, store !! batch.2 with
  | Some (FeaturesTensor features), Some (ScoresTensor ratings) =>
    let preds_at := fresh (dom store) in
    let store' :=
      <[preds_at := ScoresTensor (recommender self (features, Some ratings))]> store in
    match store' !! preds_at, store' !! batch.2 with
    | Some (ScoresTensor preds), Some (ScoresTensor ratings') =>
      let loss := loss_call (loss_fn self) preds ratings' in
      Some (loss, store', if use_wandb self then [WandbLogTrain loss] else [])
    | _, _ => None
    end
  | _, _ => None
  end.

(** *** torch.topk *)

(** Descending insertion; among equal scores the lower position comes
    first ([torch.topk] leaves the order among ties open). *)
Fixpoint insert_desc {F} `{Score F} (x : nat * F) (l : list (nat * F)) : list (nat * F) :=
  match l with
  | [] => [x]
  | y :: l' => if sle (snd y) (snd x) then x :: l else y :: insert_desc x l'
  end.

Definition sort_desc {F} `{Score F} (l : list (nat * F)) : list (nat * F) :=
  foldr insert_desc [] l.

Definition enumerate {A} (l : list A) : list (nat * A) :=
  zip (seq 0 (length l)) l.

(** [torch.topk(xs, k=k).indices]: the positions of the [k] largest entries,
    largest first. *)
Definition topk {F} `{Score F} (xs : list F) (k : nat) : exn + list nat :=
  if decide (k ≤ length xs)
  then inr (take k (fst <$> sort_desc (enumerate xs)))
  else inl RuntimeError_topk.

(** [b] may come after [a] in a descending ranking. *)
Definition desc {F} `{Score F} (a b : nat * F) : Prop := sle (snd b) (snd a) = true.

(** What a ranking is expected to return: [k] distinct positions of [xs],
    each scored at least as high as every position left out. *)
Definition is_topk {F} `{Score F} (xs : list F) (k : nat) (idx : list nat) : Prop :=
  length idx = k ∧ NoDup idx ∧
  (∀ i, i ∈ idx → i < length xs) ∧
  (∀ i j x y, i ∈ idx → j ∉ idx → xs !! i = Some x → xs !! j = Some y →
              sle y x = true).

(** *** eval_step *)

(** [np.empty((rows, cols))]: the cells hold whatever the allocator left
    there, given by [garbage]. *)
Definition np_empty (garbage : nat → nat → Z) (rows cols : nat) : list (list Z) :=
  (λ r, garbage r <$> seq 0 cols) <$> seq 0 rows.

(** [item_popularity[item.item()] += 1] over a [defaultdict(int)]. *)
Definition item_popularity (items : list nat) : gmap nat nat :=
  foldl (λ pop item, <[item := S (default 0 (pop !! item))]> pop) ∅ items.

(** [x.astype(bool)] on one cell. *)
Definition astype_bool (x : Z) : bool := negb (x =? 0)%Z.

(** [len(np.unique(b)) == 2] for a boolean array. *)
Definition two_classes (b : list bool) : bool := existsb id b && existsb negb b.

(** The locals of [eval_step] that the loop reads and writes, and the
    events emitted so far. *)
Record EvalState (M : Type) := {
  user_item_ratings : list (list Z);
  true_item_ratings : list (list Z);
  roc_auc : option M;                 (* None: not yet assigned *)
  out : list (Event M)
}.
Arguments Build_EvalState {M}.
Arguments user_item_ratings {M}.
Arguments true_item_ratings {M}.
Arguments roc_auc {M}.
Arguments out {M}.

Inductive Outcome (M : Type) :=
| Done (st : EvalState M)
| Raised (e : exn) (printed : list (Event M)).
Arguments Done {M}.
Arguments Raised {M}.

(** [torch.stack([torch.full_like(items, user_id), items], dim=1)] *)
Definition user_batch (user_id : nat) (items : list nat) : Features :=
  (λ item, [user_id; item]) <$> items.

(** Loop body, first half: the two rankings, the two row assignments and
    the display for the first row. *)
Definition rank_user {F M} `{Score F}
    (self : RecommenderModule F) (items : list nat) (ratings : list F) (k : nat)
    (st : EvalState M) (i user_id : nat) : Outcome M :=
  let user_preds := recommender self (user_batch user_id items, None) in
  match topk user_preds k with
  | inl e => Raised e (out st)
  | inr top_k_preds =>
    let uir := <[user_id := Z.of_nat <$> top_k_preds]> (user_item_ratings st) in
    match topk ratings k with
    | inl e => Raised e (out st)
    | inr true_top_k =>
      let tir := <[user_id := Z.of_nat <$> true_top_k]> (true_item_ratings st) in
      Done {| user_item_ratings := uir;
              true_item_ratings := tir;
              roc_auc := roc_auc st;
              out := out st ++
                     (if decide (i = 0) then [Display user_id top_k_preds true_top_k] else []) |}
    end
  end.

(** Loop body, second half: the metrics, the dict, the print and the log.
    [list(set(...))] lists the items in the order of Python's set, here in
    the order of [elements]; the metrics are taken to return on whatever
    they are given. *)
Definition log_metrics {F M} `{Externals F M}
    (self : RecommenderModule F) (users items : list nat) (eval_loss : M) (k : nat)
    (st : EvalState M) : Outcome M :=
  let unique_item_catalog := elements (list_to_set items : gset nat) in
  let item_popularity := item_popularity items in
  let num_users := size (list_to_set users : gset nat) in
  let num_items := size (list_to_set items : gset nat) in
  let novelty := novelty_score (user_item_ratings st) item_popularity num_users num_items in
  let user_rating_preds := concat (user_item_ratings st) in
  let user_rating_ref := concat (user_item_ratings st) in
  let prediction_coverage := prediction_coverage_score (user_item_ratings st) unique_item_catalog in
  let catalog_coverage := catalog_coverage_score (user_item_ratings st) unique_item_catalog k in
  let personalization := personalization_score (user_item_ratings st) in
  let ref_bool := astype_bool <$> user_rating_ref in
  let preds_bool := astype_bool <$> user_rating_preds in
  let roc_auc' :=
    if two_classes ref_bool && two_classes preds_bool
    then Some (roc_auc_score ref_bool preds_bool)
    else roc_auc st in
  let ndcg := ndcg_score user_rating_preds user_rating_ref in
  match roc_auc' with
  | None => Raised (UnboundLocalError "roc_auc") (out st)
  | Some r =>
    let log_dict :=
      {| ld_eval_loss := eval_loss;
         ld_ndcg := ndcg;
         ld_novelty := novelty;
         ld_prediction_coverage := prediction_coverage;
         ld_catalog_coverage := catalog_coverage;
         ld_personalization := personalization;
         ld_roc_auc := r |} in
    Done {| user_item_ratings := user_item_ratings st;
            true_item_ratings := true_item_ratings st;
            roc_auc := roc_auc';
            out := out st ++ [Print log_dict] ++
                   (if use_wandb self then [WandbLog log_dict] else []) |}
  end.

Definition eval_iteration {F M} `{Score F} `{Externals F M}
    (self : RecommenderModule F) (users items : list nat) (ratings : list F)
    (eval_loss : M) (k : nat) (st : EvalState M) (i user_id : nat) : Outcome M :=
  match rank_user self items ratings k st i user_id with
  | Done st' => log_metrics self users items eval_loss k st'
  | Raised e o => Raised e o
  end.

(** [for i, user_id in enumerate(users)], from index [i] on. *)
Fixpoint eval_loop {F M} `{Score F} `{Externals F M}
    (self : RecommenderModule F) (users items : list nat) (ratings : list F)
    (eval_loss : M) (k : nat) (st : EvalState M) (i : nat) (todo : list nat) : Outcome M :=
  match todo with
  | [] => Done st
  | user_id :: todo' =>
    match eval_iteration self users items ratings eval_loss k st i user_id with
    | Done st' => eval_loop self users items ratings eval_loss k st' (S i) todo'
    | Raised e o => Raised e o
    end
  end.

(** The locals when the loop starts.  [garbage_u] and [garbage_t] are the
    contents [np.empty] hands out for the two tables. *)
Definition eval_init {M} (garbage_u garbage_t : nat → nat → Z)
    (users : list nat) (k : nat) : EvalState M :=
  let max_user_id := max_list users + 1 in
  {| user_item_ratings := np_empty garbage_u max_user_id k;
     true_item_ratings := np_empty garbage_t max_user_id k;
     roc_auc := None;
     out := [] |}.

(** The guard of the assignment to [roc_auc], on the table of predicted
    rows: both boolean arrays are built from that table. *)
Definition roc_auc_guard (table : list (list Z)) : bool :=
  two_classes (astype_bool <$> concat table) && two_classes (astype_bool <$> concat table).

(** [eval_step] up to the end of its loop.  The forward pass and the loss
    are taken to return: they are given the tensors of one batch of the
    dataloader, which agree in their number of rows. *)
Definition eval_run {F M} `{Score F} `{Externals F M}
    (self : RecommenderModule F) (garbage_u garbage_t : nat → nat → Z)
    (batch : Features * list F) (k : nat) : Outcome M :=
  let '(features, ratings) := batch in
  match column 0 features with
  | inl e => Raised e []
  | inr users =>
    match column 1 features with
    | inl e => Raised e []
    | inr items =>
      match users with
      | [] => Raised RuntimeError_max_empty []
      | _ =>
        let preds := recommender self (with_ratings batch) in
        let eval_loss := loss_call (loss_fn self) preds ratings in
        eval_loop self users items ratings eval_loss k
                  (eval_init garbage_u garbage_t users k) 0 users
      end
    end
  end.

(** What a caller of [eval_step] observes: the events and the exception, if
    any (the method returns [None]). *)
Definition eval_step {F M} `{Score F} `{Externals F M}
    (self : RecommenderModule F) (garbage_u garbage_t : nat → nat → Z)
    (batch : Features * list F) (k : nat) : list (Event M) * option exn :=
  match eval_run self garbage_u garbage_t batch k with
  | Done st => (out st, None)
  | Raised e o => (o, Some e)
  end.

(** The claim's words for the ground truth of user [u]: [k] positions of the
    batch that are rows of [u], each rated at least as high as every other
    row of [u]. *)
Definition is_user_topk {F} `{Score F} (users : list nat) (ratings : list F)
    (u k : nat) (idx : list nat) : Prop :=
  length idx = k ∧
  (∀ i, i ∈ idx → users !! i = Some u) ∧
  (∀ i j x y, i ∈ idx → j ∉ idx → users !! j = Some u →
              ratings !! i = Some x → ratings !! j = Some y → sle y x = true).

(** The row [eval_step] writes into [user_item_ratings] for user [u]. *)
Definition predicted_row {F} `{Score F} (self : RecommenderModule F)
    (items : list nat) (k : nat) (u : nat) : list Z :=
  match topk (recommender self (user_batch u items, None)) k with
  | inr top_k_preds => Z.of_nat <$> top_k_preds
  | inl _ => []
  end.

(** [user_item_ratings] once the rows of the users in [processed] are written. *)
Definition table_after {F} `{Score F} (self : RecommenderModule F)
    (items : list nat) (k : nat) (table : list (list Z)) (processed : list nat)
    : list (list Z) :=
  foldl (λ t u, <[u := predicted_row self items k u]> t) table processed.

(** [d] holds the metrics computed over [table], the predicted rows as
    they stand at some point of the loop. *)
Definition logged_over {F M} `{Externals F M} (users items : list nat)
    (eval_loss : M) (k : nat) (table : list (list Z)) (d : LogDict M) : Prop :=
  ld_eval_loss d = eval_loss ∧
  ld_ndcg d = ndcg_score (concat table) (concat table) ∧
  ld_novelty d = novelty_score table (item_popularity items)
                   (size (list_to_set users : gset nat))
                   (size (list_to_set items : gset nat)) ∧
  ld_prediction_coverage d =
    prediction_coverage_score table (elements (list_to_set items : gset nat)) ∧
  ld_catalog_coverage d =
    catalog_coverage_score table (elements (list_to_set items : gset nat)) k ∧
  ld_personalization d = personalization_score table.

(** The log dicts printed, in order. *)
Definition printed_dicts {M} (evs : list (Event M)) : list (LogDict M) :=
  omap (λ ev, match ev with Print d => Some d | _ => None end) evs.

(** ** get_feature_embeddings *)

(** A tensor: its shape and its entries in row-major order. *)
Record Tensor (F : Type) := { shape : list nat; data : list F }.
Arguments Build_Tensor {F}.
Arguments shape {F}.
Arguments data {F}.

(** [nn.Embedding]: one weight row of [emb_dim] entries per id. *)
Record Embedding (F : Type) := { emb_dim : nat; weight : list (list F) }.
Arguments Build_Embedding {F}.
Arguments emb_dim {F}.
Arguments weight {F}.

(** The attributes of [RecModel] that the function reads. *)
Record RecModel (F : Type) := {
  emb_columns : list string;
  emb_dict : gmap string (Embedding F);
  emb_in_size : nat
}.
Arguments Build_RecModel {F}.
Arguments emb_columns {F}.
Arguments emb_dict {F}.
Arguments emb_in_size {F}.

Inductive Stdout :=
| PrintColumns (columns : list string)                            (* print(self.emb_columns) *)
| PrintFeature (name : string) (column_shape embedded_shape : list nat).

(** [emb(feature_column)] *)
Definition embed {F} (emb : Embedding F) (ids : list nat) : exn + list (list F) :=
  match mapM (λ id, weight emb !! id) ids with
  | Some rows => inr rows
  | None => inl IndexError
  end.

(** One pass of the loop for the column [i] named [feature_name]: the
    embedding dimension and the embedded column. *)
Definition embed_feature {F} (self : RecModel F) (features : Features)
    (i : nat) (feature_name : string) : exn + (nat * list (list F)) :=
  match emb_dict self !! feature_name with
  | None => inl (KeyError feature_name)
  | Some emb =>
    match column i features with
    | inl e => inl e
    | inr feature_column =>
      match embed emb feature_column with
      | inl e => inl e
      | inr embedded_column => inr (emb_dim emb, embedded_column)
      end
    end
  end.

(** [for i, feature_name in enumerate(self.emb_columns)], from [i] on. *)
Fixpoint embed_loop {F} (self : RecModel F) (features : Features)
    (i : nat) (names : list string)
    : list Stdout * (exn + list (nat * list (list F))) :=
  match names with
  | [] => ([], inr [])
  | feature_name :: names' =>
    match embed_feature self features i feature_name with
    | inl e => ([], inl e)
    | inr (d, embedded_column) =>
      let n := length features in
      let '(lines, r) := embed_loop self features (S i) names' in
      (PrintFeature feature_name [n] [n; d] :: lines,
       match r with
       | inl e => inl e
       | inr embeddings => inr ((d, embedded_column) :: embeddings)
       end)
    end
  end.

(** Entry [i] of the result lists entry [i] of every column, in order. *)
Fixpoint stack_dim1 {A} (n : nat) (cols : list (list A)) : list (list A) :=
  match cols with
  | [] => replicate n []
  | c :: cs => zip_with cons c (stack_dim1 n cs)
  end.

(** [torch.stack(embeddings, dim=1)] on [m] tensors of shape [(n, d)]. *)
Definition torch_stack_dim1 {F} (n : nat) (embeddings : list (nat * list (list F)))
    : exn + Tensor F :=
  match embeddings with
  | [] => inl RuntimeError_stack
  | (d, _) :: _ =>
    if forallb (λ e, e.1 =? d) embeddings
    then inr {| shape := [n; length embeddings; d];
                data := concat (@concat F <$> stack_dim1 n (snd <$> embeddings)) |}
    else inl RuntimeError_stack
  end.

(** [t.squeeze()] drops every axis of size one. *)
Definition squeeze {F} (t : Tensor F) : Tensor F :=
  {| shape := filter (λ s, s ≠ 1) (shape t); data := data t |}.

(** [t.view(-1, size)] *)
Definition view_rows {F} (t : Tensor F) (size : nat) : exn + Tensor F :=
  let total := length (data t) in
  if decide (size ≠ 0 ∧ total `mod` size = 0)
  then inr {| shape := [total `div` size; size]; data := data t |}
  else inl RuntimeError_view.

(** The loop and [torch.stack(embeddings, dim=1)]. *)
Definition stack_feature_embeddings {F} (self : RecModel F) (features : Features)
    : list Stdout * (exn + Tensor F) :=
  let '(lines, r) := embed_loop self features 0 (emb_columns self) in
  (PrintColumns (emb_columns self) :: lines,
   match r with
   | inl e => inl e
   | inr embeddings => torch_stack_dim1 (length features) embeddings
   end).

Definition get_feature_embeddings {F} (self : RecModel F)
    (batch : Features * option (list F)) (concat : bool)
    : list Stdout * (exn + Tensor F) :=
  let '(features, _) := batch in
  let '(lines, r) := stack_feature_embeddings self features in
  (lines,
   match r with
   | inl e => inl e
   | inr stacked =>
     let embeddings := squeeze stacked in
     if concat then view_rows embeddings (emb_in_size self) else inr embeddings
   end).

(** Row [i] of a two-dimensional tensor. *)
Definition tensor_row {F} (t : Tensor F) (i : nat) : list F :=
  match shape t with
  | [_; width] => take width (drop (i * width) (data t))
  | _ => []
  end.

(** The claim's words: the embedding vector of example [example] for the
    column [c] (its position and its name) ... *)
Definition vector_at {F} (self : RecModel F) (example : list nat) (c : nat * string)
    : option (list F) :=
  emb ← emb_dict self !! c.2;
  id ← example !! c.1;
  weight emb !! id.

(** ... the vectors of all embedding columns, in order ... *)
Definition example_vectors {F} (self : RecModel F) (example : list nat)
    : option (list (list F)) :=
  mapM (vector_at self example) (enumerate (emb_columns self)).

(** ... and their concatenation, the row of the example. *)
Definition example_row {F} (self : RecModel F) (example : list nat) : option (list F) :=
  @concat F <$> example_vectors self example.

(** A model with embedding columns of one dimension [d], whose
    [emb_in_size] is the width of a concatenated row. *)
Definition model_with_dim {F} (self : RecModel F) (d : nat) : Prop :=
  emb_columns self ≠ [] ∧ 0 < d ∧
  emb_in_size self = length (emb_columns self) * d ∧
  ∀ name, name ∈ emb_columns self →
    ∃ emb, emb_dict self !! name = Some emb ∧ emb_dim emb = d ∧
           Forall (λ row, length row = d) (weight emb).

(** ** The driver cell *)

Inductive Split := TrainSplit | EvalSplit.

(** What the cells of the notebook call at top level. *)
Inductive Action :=
| GetAvailableDevice
| PrintLine (line : string)
| LoadDataset (name : string) (fmt : RatingFormat) (max_rows : nat) (max_users : option nat)
| RandomSplit (train_size eval_size : Z)
| MakeDataLoader (split : Split) (batch_size : nat) (shuffle : bool) (num_workers : nat)
| BuildModel (arch : ModelArchitecture) (embedding_dim : nat) (fmt : RatingFormat)
| ToDevice (what : string)
| ModelTrainMode
| BuildModule (loss : LossFn) (use_wandb : bool)
| WandbInit (project : string) (config : Params)
| WandbWatch
| BuildAdamW (lr weight_decay : Q)
| BuildScheduler (T_max : nat) (eta_min : Q)
| DatasetGetItem (index : nat)
| NextBatch (split : Split)
| CallGetFeatureEmbeddings (concat : bool)
| CallTrainingStep
| CallEvalStep.

(** The calls of the cell when none of them raises, with the value of its
    first assignment [use_wandb = False] left open; [dataset_len] is
    [len(dataset)]. *)
Definition driver_actions (P : Params) (use_wandb : bool) (dataset_len : nat) : list Action :=
  [ GetAvailableDevice;
    PrintLine "Loading dataset..";
    LoadDataset "ml-25m" (rating_format P) (max_rows P) (max_users P);
    RandomSplit (Z.of_nat dataset_len - Z.of_nat (eval_size P)) (Z.of_nat (eval_size P));
    MakeDataLoader TrainSplit (batch_size P) true 8;
    MakeDataLoader EvalSplit (eval_size P) true 8;
    BuildModel (model_architecture P) (embedding_dim P) (rating_format P);
    ToDevice "model";
    ModelTrainMode;
    BuildModule (select_loss P) use_wandb;
    ToDevice "module" ] ++
  (if use_wandb then [WandbInit "recsys" P; WandbWatch] else []) ++
  [ BuildAdamW (learning_rate P) (weight_decay P);
    BuildScheduler (num_epochs P) (1 # 1000000)%Q ].

(** Batches in one pass over the training dataloader. *)
Definition train_batches (P : Params) (dataset_len : nat) : nat :=
  (dataset_len - eval_size P + batch_size P - 1) `div` batch_size P.

(** What the constructors of the cell ask of their arguments: a training
    split and an evaluation split that are not empty (a shuffling
    [DataLoader] refuses an empty dataset, and no split of a dataset with
    at most [eval_size] rows leaves a training row), a positive batch size,
    and a learning rate and a weight decay that are not negative ([AdamW]).
    Each of them raises a [ValueError] otherwise. *)
Definition driver_valid (P : Params) (dataset_len : nat) : bool :=
  (eval_size P <? dataset_len) && (0 <? eval_size P) && (0 <? batch_size P)
  && Qle_bool 0 (learning_rate P) && Qle_bool 0 (weight_decay P).

(** The cell: its calls, or the exception that ends it. *)
Definition driver (P : Params) (use_wandb : bool) (dataset_len : nat) : exn + list Action :=
  if driver_valid P dataset_len
  then inr (driver_actions P use_wandb dataset_len)
  else inl ValueError.

(** The cell as written. *)
Definition driver_cell (P : Params) (dataset_len : nat) : exn + list Action :=
  driver P false dataset_len.

(** The cells after the driver, in order. *)
Definition later_cells : list Action :=
  [ DatasetGetItem 120;
    NextBatch TrainSplit;
    CallGetFeatureEmbeddings true;
    CallGetFeatureEmbeddings false ].

Definition is_training_step (a : Action) : bool :=
  match a with CallTrainingStep => true | _ => false end.

Definition is_wandb (a : Action) : bool :=
  match a with WandbInit _ _ | WandbWatch => true | _ => false end.

(** Calls of [training_step] made by a run of cells. *)
Definition training_steps_run (acts : list Action) : nat :=
  length (filter (λ a, is_training_step a = true) acts).

(** ** A run on paper

    Integer scores, and external functions that return the call they
    received, so that a run shows what each of them was given. *)

#[export] Program Instance Z_Score : Score Z := {| sle := Z.leb |}.
Next Obligation. intros x y. cbn. lia. Qed.
Next Obligation. intros x y z. cbn. lia. Qed.

Inductive Call :=
| call_BCELoss (preds ratings : list Z)
| call_MSELoss (preds ratings : list Z)
| call_ndcg_score (preds ref : list Z)
| call_novelty_score (table : list (list Z)) (popularity : list (nat * nat)) (num_users num_items : nat)
| call_prediction_coverage_score (table : list (list Z)) (catalog : list nat)
| call_catalog_coverage_score (table : list (list Z)) (catalog : list nat) (k : nat)
| call_personalization_score (table : list (list Z))
| call_roc_auc_score (ref preds : list bool).

#[export] Instance recording : Externals Z Call := {|
  BCELoss_call := call_BCELoss;
  MSELoss_call := call_MSELoss;
  ndcg_score := call_ndcg_score;
  novelty_score := λ t pop, call_novelty_score t (map_to_list pop);
  prediction_coverage_score := call_prediction_coverage_score;
  catalog_coverage_score := call_catalog_coverage_score;
  personalization_score := call_personalization_score;
  roc_auc_score := call_roc_auc_score
|}.

(** Two users, one rated item each: user 1 gave item 10 five stars, user 2
    gave item 20 one star. *)
Definition two_users : Features * list Z := ([[1; 10]; [2; 20]], [5; 1]%Z).

(** A forward pass under which user 1 prefers the larger item id and user 2
    the smaller one. *)
Definition toy_forward (batch : Features * option (list Z)) : list Z :=
  (λ row, match row with
          | [u; item] => if u =? 1 then Z.of_nat item else (- Z.of_nat item)%Z
          | _ => 0%Z
          end) <$> batch.1.

Definition toy_module : RecommenderModule Z :=
  RecommenderModule_init Params_defaults toy_forward false.

(** Two contents [np.empty] may hand out: a zero in row 0 and nines below,
    or sevens everywhere. *)
Definition stale : nat → nat → Z := λ r _, if r =? 0 then 0%Z else 9%Z.
Definition sevens : nat → nat → Z := λ _ _, 7%Z.

(** Two embedding columns of dimension two, two ids each. *)
Definition toy_model : RecModel Z := {|
  emb_columns := ["userId"; "movieId"]%string;
  emb_dict := {[ "userId"%string := {| emb_dim := 2; weight := [[1; 2]; [3; 4]]%Z |};
                 "movieId"%string := {| emb_dim := 2; weight := [[5; 6]; [7; 8]]%Z |} ]};
  emb_in_size := 4
|}.

(** ** Reading a trace of [eval_step] *)

(** The dicts sent to the tracker, in order. *)
Definition wandb_dicts {M} (evs : list (Event M)) : list (LogDict M) :=
  omap (λ ev, match ev with WandbLog d => Some d | _ => None end) evs.

(** The recommendation outputs displayed, in order. *)
Definition displays {M} (evs : list (Event M)) : list (nat * list nat * list nat) :=
  omap (λ ev, match ev with Display u p t => Some (u, p, t) | _ => None end) evs.

(** What one pass of the loop emits for its dict: the print, then the log
    when the module logs. *)
Definition pass_events {M} (w : bool) (d : LogDict M) : list (Event M) :=
  Print d :: (if w then [WandbLog d] else []).

(** The entries of a dict other than the loss. *)
Definition ranking_metrics {M} (d : LogDict M) : M * M * M * M * M * M :=
  (ld_ndcg d, ld_novelty d, ld_prediction_coverage d,
   ld_catalog_coverage d, ld_personalization d, ld_roc_auc d).

(** The events and the exception of an outcome. *)
Definition events_of {M} (o : Outcome M) : list (Event M) :=
  match o with Done st => out st | Raised _ printed => printed end.

Definition exn_of {M} (o : Outcome M) : option exn :=
  match o with Done _ => None | Raised e _ => Some e end.

(** How the [roc_auc] entries of consecutive dicts are linked, given the
    table [t0] the loop started from: a fresh score when the guard holds on
    the table of the pass, the entry of the dict before when it does not. *)
Definition roc_auc_chain {F M} `{Score F} `{Externals F M} (self : RecommenderModule F)
    (users items : list nat) (k : nat) (t0 : list (list Z))
    (ds : list (LogDict M)) : Prop :=
  ∀ j d d', ds !! j = Some d → ds !! S j = Some d' →
    let table := table_after self items k t0 (take (S (S j)) users) in
    ld_roc_auc d' =
      if roc_auc_guard table
      then roc_auc_score (astype_bool <$> concat table) (astype_bool <$> concat table)
      else ld_roc_auc d.

(** ** Params.default_values *)

(** A member of one of the three IntEnums. *)
Inductive EnumMember :=
| Member_RatingFormat (m : RatingFormat)
| Member_ModelArchitecture (m : ModelArchitecture)
| Member_DatasetSource (m : DatasetSource).

(** The values the attributes of a [Params] instance hold, and the strings
    [default_values] puts in the place of enum members. *)
Inductive PyValue :=
| PyFloat (x : Q)
| PyInt (n : nat)
| PyBool (b : bool)
| PyNone
| PyIntEnum (member : EnumMember)
| PyName (member : EnumMember)        (* member.name *)
| PyCallable.

Definition callable (v : PyValue) : bool :=
  match v with PyCallable => true | _ => false end.

Definition isinstance_IntEnum (v : PyValue) : bool :=
  match v with PyIntEnum _ => true | _ => false end.

(** [dir(instance)] with [getattr(instance, attr)] beside each name, in the
    sorted order of [dir]: the attributes every object has ([inherited],
    whose names all start with two underscores and so sort first), then the
    attributes of the class, its classmethod among them. *)
Definition Params_dir (inherited : list (string * PyValue)) (P : Params)
    : list (string * PyValue) :=
  inherited ++
  [ ("batch_size", PyInt (batch_size P));
    ("dataset_source", PyIntEnum (Member_DatasetSource (dataset_source P)));
    ("default_values", PyCallable);
    ("do_eval", PyBool (do_eval P));
    ("dropout", PyFloat (dropout P));
    ("embedding_dim", PyInt (embedding_dim P));
    ("eval_every", PyInt (eval_every P));
    ("eval_size", PyInt (eval_size P));
    ("learning_rate", PyFloat (learning_rate P));
    ("max_batches", PyInt (max_batches P));
    ("max_rows", PyInt (max_rows P));
    ("max_users", match max_users P with Some n => PyInt n | None => PyNone end);
    ("model_architecture", PyIntEnum (Member_ModelArchitecture (model_architecture P)));
    ("num_epochs", PyInt (num_epochs P));
    ("rating_format", PyIntEnum (Member_RatingFormat (rating_format P)));
    ("weight_decay", PyFloat (weight_decay P)) ]%string.

(** [Params.default_values()]; the dict is the list of its items, in
    insertion order. *)
Definition default_values (inherited : list (string * PyValue)) (P : Params)
    : list (string * PyValue) :=
  let instance := Params_dir inherited P in
  let attrs_dict :=
    filter (λ a : string * PyValue,
              negb (callable a.2) && negb (String.prefix "__" a.1) = true)
           instance in
  (λ a : string * PyValue,
     (a.1, match a.2 with PyIntEnum member => PyName member | value => value end))
    <$> attrs_dict.

(** * Properties *)

(** ** torch.topk *)

Section TopK.
Context {F : Type} `{Score F}.

Lemma insert_desc_perm x l : insert_desc x l ≡ₚ x :: l.
Proof.
  induction l as [|y l IH]; cbn; [done|].
  destruct (sle (snd y) (snd x)); [done|].
  rewrite IH. apply Permutation_swap.
Qed.

Lemma sort_desc_perm l : sort_desc l ≡ₚ l.
Proof.
  induction l as [|x l IH]; cbn; [done|].
  rewrite insert_desc_perm. by rewrite IH.
Qed.

Lemma insert_desc_sorted x l :
  StronglySorted desc l → StronglySorted desc (insert_desc x l).
Proof.
  induction 1 as [|y l Hl IH Hy]; cbn.
  - repeat constructor.
  - destruct (sle (snd y) (snd x)) eqn:E.
    + constructor; [by constructor|].
      constructor; [done|].
      eapply Forall_impl; [exact Hy|].
      intros z Hz. unfold desc in *. by eapply sle_trans.
    + constructor; [done|].
      rewrite insert_desc_perm. constructor; [|done].
      unfold desc. destruct (sle_total (snd x) (snd y)); congruence.
Qed.

Lemma sort_desc_sorted l : StronglySorted desc (sort_desc l).
Proof.
  induction l as [|x l IH]; cbn; [constructor|].
  by apply insert_desc_sorted.
Qed.

Lemma fst_enumerate {A} (l : list A) : (enumerate l).*1 = seq 0 (length l).
Proof. unfold enumerate. apply fst_zip. by rewrite length_seq. Qed.

Lemma enumerate_lookup {A} (l : list A) i x :
  (i, x) ∈ enumerate l ↔ l !! i = Some x.
Proof.
  unfold enumerate. rewrite list_elem_of_lookup. split.
  - intros [j Hj]. apply lookup_zip_with_Some in Hj
      as (a & b & [= <- <-] & Ha & Hb).
    apply lookup_seq in Ha as [-> _]. done.
  - intros Hi. exists i. apply lookup_zip_with_Some.
    exists i, x. split_and!; [done| |done].
    apply lookup_seq. split; [done|]. by eapply lookup_lt_Some.
Qed.

Lemma StronglySorted_take_drop {A} (R : A → A → Prop) l k a b :
  StronglySorted R l → a ∈ take k l → b ∈ drop k l → R a b.
Proof.
  intros Hs. revert k. induction Hs as [|x l Hl IH Hx]; intros k Ha Hb.
  - rewrite take_nil in Ha. by apply elem_of_nil in Ha.
  - destruct k as [|k]; cbn in *; [by apply elem_of_nil in Ha|].
    apply elem_of_cons in Ha as [->|Ha].
    + rewrite Forall_forall in Hx. apply Hx.
      eapply subseteq_drop, Hb.
    + by eapply IH.
Qed.

Lemma topk_Some (xs : list F) k : k ≤ length xs → ∃ idx, topk xs k = inr idx.
Proof. intros Hk. unfold topk. rewrite decide_True by done. eauto. Qed.

Lemma topk_None (xs : list F) k : length xs < k → topk xs k = inl RuntimeError_topk.
Proof. intros Hk. unfold topk. rewrite decide_False by lia. done. Qed.

Lemma topk_is_topk (xs : list F) k idx : topk xs k = inr idx → is_topk xs k idx.
Proof.
  unfold topk. case_decide as Hk; [|done]. intros [= <-].
  set (srt := sort_desc (enumerate xs)).
  assert (Hperm : srt.*1 ≡ₚ seq 0 (length xs)).
  { unfold srt. rewrite sort_desc_perm. by rewrite fst_enumerate. }
  assert (Hnd : NoDup (srt.*1)).
  { rewrite Hperm. apply NoDup_seq. }
  assert (Hlen : length srt = length xs).
  { rewrite <-(length_fmap fst), Hperm. apply length_seq. }
  split_and!.
  - rewrite length_take, length_fmap. lia.
  - rewrite <-(take_drop k (srt.*1)) in Hnd.
    by apply NoDup_app in Hnd as (? & _ & _).
  - intros i Hi. apply elem_of_take in Hi as (? & Hi & _).
    apply list_elem_of_lookup_2 in Hi.
    rewrite Hperm in Hi. apply elem_of_seq in Hi. lia.
  - intros i j x y Hi Hj Hx Hy.
    rewrite <-fmap_take in Hi.
    apply list_elem_of_fmap in Hi as ([i' x'] & -> & Hi). cbn in *.
    assert ((i', x') ∈ enumerate xs) as Hix.
    { rewrite <-(sort_desc_perm (enumerate xs)). eapply subseteq_take, Hi. }
    apply enumerate_lookup in Hix. simplify_eq.
    assert ((j, y) ∈ srt) as Hjy.
    { unfold srt. rewrite sort_desc_perm. by apply enumerate_lookup. }
    rewrite <-(take_drop k srt) in Hjy. apply elem_of_app in Hjy as [Hjy|Hjy].
    + exfalso. apply Hj. rewrite <-fmap_take.
      apply list_elem_of_fmap. by exists (j, y).
    + eapply (StronglySorted_take_drop desc srt k (i', x) (j, y));
        [apply sort_desc_sorted|done..].
Qed.

End TopK.

(** ** RecommenderModule.__init__ *)

Lemma select_loss_BCE P :
  select_loss P = BCELoss ↔
  rating_format P = BINARY ∧ model_architecture P ≠ MATRIX_FACTORIZATION.
Proof.
  unfold select_loss.
  destruct (bool_decide (rating_format P = BINARY)) eqn:E1;
    destruct (bool_decide (model_architecture P ≠ MATRIX_FACTORIZATION)) eqn:E2; cbn;
    try apply bool_decide_eq_true in E1; try apply bool_decide_eq_true in E2;
    try apply bool_decide_eq_false in E1; try apply bool_decide_eq_false in E2;
    split; try done; intros [??]; done.
Qed.

Lemma select_loss_cases P : select_loss P = BCELoss ∨ select_loss P = MSELoss.
Proof. destruct (select_loss P); auto. Qed.

(** C7: [__init__] stores the BCE loss exactly when the rating format is
    BINARY and the architecture is not MATRIX_FACTORIZATION; in every other
    configuration it stores the MSE loss, BINARY ratings with
    MATRIX_FACTORIZATION included. *)
Theorem init_selects_loss {F} (P : Params)
    (rec : Features * option (list F) → list F) (w : bool) :
  (loss_fn (RecommenderModule_init P rec w) = BCELoss ↔
     rating_format P = BINARY ∧ model_architecture P ≠ MATRIX_FACTORIZATION) ∧
  (loss_fn (RecommenderModule_init P rec w) = MSELoss ↔
     ¬ (rating_format P = BINARY ∧ model_architecture P ≠ MATRIX_FACTORIZATION)) ∧
  (rating_format P = BINARY ∧ model_architecture P = MATRIX_FACTORIZATION →
     loss_fn (RecommenderModule_init P rec w) = MSELoss).
Proof.
  cbn [RecommenderModule_init loss_fn].
  pose proof (select_loss_BCE P) as HB.
  destruct (select_loss_cases P) as [E|E]; rewrite E in *.
  - split_and!; [done| |].
    + split; [done|]. intros Hn. exfalso. apply Hn. by apply HB.
    + intros [_ Hmf]. apply proj1 in HB. destruct (HB eq_refl) as [_ Hne]. done.
  - split_and!; [done| |done].
    split; [|done]. intros _ Hc. apply HB in Hc. done.
Qed.

(** ** training_step *)



Lemma training_step_logs {F M} `{Externals F M}
    (self : RecommenderModule F) (batch : Features * list F) :
  emitted (training_step self batch) ≠ [] ↔ use_wandb self = true.
Proof.
  destruct batch as [features ratings]. cbn.
  destruct (use_wandb self); split; done.
Qed.

(** ** The driver cell *)

(** C5, as stated, fails on the cell: with the notebook's parameters and a
    dataset of 1000 rows, 100 epochs over the 29 training batches would be
    2900 calls of [training_step]; the cell runs to its end and makes none. *)
Lemma driver_cell_runs_no_epoch :
  num_epochs Params_defaults * train_batches Params_defaults 1000 = 2900 ∧
  ∃ acts, driver_cell Params_defaults 1000 = inr acts ∧
          training_steps_run acts
            ≠ num_epochs Params_defaults * train_batches Params_defaults 1000.
Proof.
  split; [reflexivity|]. eexists. split; [reflexivity|]. vm_compute. discriminate.
Qed.

(** C5, amended: on parameters that its constructors accept, the cell runs
    to its end; it builds the dataset, the model, the module, the optimizer
    and the scheduler, in this order, the scheduler with
    [T_max = num_epochs]; it calls [training_step] not once, and neither do
    the cells after it; when [use_wandb] is true its calls to the tracker
    are [wandb.init] and then [wandb.watch], once each, and when it is false
    it makes no call to the tracker; the module it builds carries the flag. *)
Theorem driver_builds_and_runs_nothing (P : Params) (w : bool) (dataset_len : nat) :
  driver_valid P dataset_len = true →
  ∃ acts,
    driver P w dataset_len = inr acts ∧
    [ LoadDataset "ml-25m" (rating_format P) (max_rows P) (max_users P);
      BuildModel (model_architecture P) (embedding_dim P) (rating_format P);
      BuildModule (select_loss P) w;
      BuildAdamW (learning_rate P) (weight_decay P);
      BuildScheduler (num_epochs P) (1 # 1000000)%Q ]
      `sublist_of` acts ∧
    training_steps_run acts = 0 ∧
    training_steps_run (acts ++ later_cells) = 0 ∧
    filter (λ a, is_wandb a = true) acts
      = (if w then [WandbInit "recsys" P; WandbWatch] else []).
Proof.
  intros Hvalid. exists (driver_actions P w dataset_len).
  unfold driver. rewrite Hvalid. split_and!; [done|..].
  - unfold driver_actions. destruct w; cbn;
      repeat first [ apply sublist_nil | apply sublist_skip | apply sublist_cons ].
  - by destruct w.
  - by destruct w.
  - by destruct w.
Qed.

(** The notebook's parameters on a dataset of 1000 rows, with the tracker on. *)
Lemma driver_builds_and_runs_nothing_witness :
  ∃ acts, driver Params_defaults true 1000 = inr acts ∧
          filter (λ a, is_wandb a = true) acts
            = [WandbInit "recsys" Params_defaults; WandbWatch].
Proof.
  destruct (driver_builds_and_runs_nothing Params_defaults true 1000 eq_refl)
    as (acts & Hrun & _ & _ & _ & Hwandb).
  by exists acts.
Defined.

(** ** eval_step: one pass of the loop *)

Section EvalStep.
Context {F M : Type} `{Score F} `{Externals F M}.
Implicit Types (self : RecommenderModule F) (st : EvalState M).

(** The first half of the body fails only when a ranking does, and otherwise
    writes the two rankings into the row of the current user. *)
Lemma rank_user_Done self items ratings k st i u st' :
  rank_user self items ratings k st i u = Done st' →
  ∃ p t,
    topk (recommender self (user_batch u items, None)) k = inr p ∧
    topk ratings k = inr t ∧
    user_item_ratings st' = <[u := Z.of_nat <$> p]> (user_item_ratings st) ∧
    true_item_ratings st' = <[u := Z.of_nat <$> t]> (true_item_ratings st) ∧
    roc_auc st' = roc_auc st ∧
    out st' = out st ++ (if decide (i = 0) then [Display u p t] else []).
Proof.
  unfold rank_user.
  destruct (topk (recommender self _) k) as [e|p]; [done|].
  destruct (topk ratings k) as [e|t]; [done|].
  intros [= <-]. by exists p, t.
Qed.

Lemma rank_user_total self items ratings k st i u :
  k ≤ length (recommender self (user_batch u items, None)) →
  k ≤ length ratings →
  ∃ st', rank_user self items ratings k st i u = Done st'.
Proof.
  intros Hp Ht. unfold rank_user.
  destruct (topk_Some _ _ Hp) as [p ->].
  destruct (topk_Some _ _ Ht) as [t ->]. eauto.
Qed.

(** The predicted row of a user is a top-k of the scores the model gives
    that user on the items of the batch. *)
Lemma rank_user_predicted_row self items ratings k st i u st' :
  rank_user self items ratings k st i u = Done st' →
  u < length (user_item_ratings st) →
  ∃ p, is_topk (recommender self (user_batch u items, None)) k p ∧
       user_item_ratings st' !! u = Some (Z.of_nat <$> p).
Proof.
  intros (p & t & Hp & _ & Hu & _)%rank_user_Done Hlt.
  exists p. split; [by apply topk_is_topk|].
  rewrite Hu. by apply list_lookup_insert_eq.
Qed.

(** The second half of the body touches neither table. *)
Lemma log_metrics_Done self users items loss k st st' :
  log_metrics self users items loss k st = Done st' →
  user_item_ratings st' = user_item_ratings st ∧
  true_item_ratings st' = true_item_ratings st ∧
  roc_auc st' =
    (if roc_auc_guard (user_item_ratings st)
     then Some (roc_auc_score (astype_bool <$> concat (user_item_ratings st))
                              (astype_bool <$> concat (user_item_ratings st)))
     else roc_auc st) ∧
  ∃ d, roc_auc st' = Some (ld_roc_auc d) ∧
       ld_eval_loss d = loss ∧
       ld_ndcg d = ndcg_score (concat (user_item_ratings st)) (concat (user_item_ratings st)) ∧
       ld_novelty d = novelty_score (user_item_ratings st) (item_popularity items)
                        (size (list_to_set users : gset nat))
                        (size (list_to_set items : gset nat)) ∧
       ld_prediction_coverage d =
         prediction_coverage_score (user_item_ratings st)
           (elements (list_to_set items : gset nat)) ∧
       ld_catalog_coverage d =
         catalog_coverage_score (user_item_ratings st)
           (elements (list_to_set items : gset nat)) k ∧
       ld_personalization d = personalization_score (user_item_ratings st) ∧
       out st' = out st ++ [Print d] ++ (if use_wandb self then [WandbLog d] else []).
Proof.
  unfold log_metrics, roc_auc_guard. cbv zeta.
  destruct (if _ && _ then _ else roc_auc st) as [r|] eqn:Er; [|done].
  intros [= <-]. cbn. split_and!; [done..|].
  eexists (Build_LogDict _ _ _ _ _ _ r). cbn. split_and!; done.
Qed.

(** The ground-truth table reaches no metric: with any other table in its
    place the pass prints and logs the same. *)
Lemma log_metrics_ignores_ground_truth self users items loss k st truth :
  let st' := {| user_item_ratings := user_item_ratings st;
                true_item_ratings := truth;
                roc_auc := roc_auc st;
                out := out st |} in
  match log_metrics self users items loss k st, log_metrics self users items loss k st' with
  | Done a, Done b => out a = out b ∧ roc_auc a = roc_auc b
  | Raised e o, Raised e' o' => e = e' ∧ o = o'
  | _, _ => False
  end.
Proof.
  unfold log_metrics. cbn.
  destruct (if _ && _ then _ else roc_auc st); done.
Qed.

(** [roc_auc] is assigned only under the guard. *)
Lemma log_metrics_assigns_under_guard self users items loss k st st' :
  log_metrics self users items loss k st = Done st' →
  roc_auc st' ≠ roc_auc st →
  roc_auc_guard (user_item_ratings st) = true.
Proof.
  intros (_ & _ & Hr & _)%log_metrics_Done Hne.
  destruct (roc_auc_guard _); [done|]. by rewrite Hr in Hne.
Qed.

(** With the guard false and nothing assigned yet, reading [roc_auc] raises. *)
Lemma log_metrics_unbound self users items loss k st :
  roc_auc st = None →
  roc_auc_guard (user_item_ratings st) = false →
  log_metrics self users items loss k st = Raised (UnboundLocalError "roc_auc") (out st).
Proof.
  intros Hr Hg. unfold log_metrics, roc_auc_guard in *. cbv zeta.
  by rewrite Hg, Hr.
Qed.

(** With the guard true, or a value left by an earlier pass, it goes through. *)
Lemma log_metrics_total self users items loss k st :
  roc_auc_guard (user_item_ratings st) = true ∨ is_Some (roc_auc st) →
  ∃ st', log_metrics self users items loss k st = Done st' ∧ is_Some (roc_auc st').
Proof.
  intros Hg. unfold log_metrics, roc_auc_guard in *. cbv zeta.
  destruct Hg as [->|[r ->]].
  - eexists. split; [done|]. cbn. eauto.
  - destruct (_ && _); (eexists; split; [done|cbn; eauto]).
Qed.

End EvalStep.

(** ** eval_step: the whole loop *)

Section EvalRun.
Context {F M : Type} `{Score F} `{Externals F M}.
Implicit Types (self : RecommenderModule F) (st : EvalState M).

Lemma eval_iteration_Done self users items ratings loss k st i u st' :
  eval_iteration self users items ratings loss k st i u = Done st' →
  ∃ st1, rank_user self items ratings k st i u = Done st1 ∧
         log_metrics self users items loss k st1 = Done st'.
Proof.
  unfold eval_iteration.
  destruct (rank_user self items ratings k st i u) as [st1|]; [|done]. eauto.
Qed.

Lemma eval_run_unfold self gu gt features ratings k u0 users items :
  column 0 features = inr (u0 :: users) →
  column 1 features = inr items →
  eval_run self gu gt (features, ratings) k =
    eval_loop self (u0 :: users) items ratings
      (loss_call (loss_fn self) (recommender self (with_ratings (features, ratings))) ratings)
      k (eval_init gu gt (u0 :: users) k) 0 (u0 :: users).
Proof. intros Hc0 Hc1. unfold eval_run. by rewrite Hc0, Hc1. Qed.

Lemma length_np_empty g rows cols : length (np_empty g rows cols) = rows.
Proof. unfold np_empty. by rewrite length_fmap, length_seq. Qed.

(** Every user of the batch has a row in the tables. *)
Lemma user_row_in_range (gu gt : nat → nat → Z) (users : list nat) k u :
  u ∈ users →
  u < length (user_item_ratings (eval_init (M := M) gu gt users k)) ∧
  u < length (true_item_ratings (eval_init (M := M) gu gt users k)).
Proof.
  intros Hu. cbn. rewrite !length_np_empty.
  pose proof (max_list_elem_of_le u users Hu). lia.
Qed.

(** The ground-truth rows through the loop: the rows of the users still to
    come, and the rows that already hold the ranking of the ratings, hold
    it at the end. *)
Lemma eval_loop_true_rows self users items ratings loss k idx todo :
  topk ratings k = inr idx →
  ∀ st i st',
    eval_loop self users items ratings loss k st i todo = Done st' →
    length (true_item_ratings st') = length (true_item_ratings st) ∧
    ∀ u, (u ∈ todo ∧ u < length (true_item_ratings st)) ∨
         true_item_ratings st !! u = Some (Z.of_nat <$> idx) →
         true_item_ratings st' !! u = Some (Z.of_nat <$> idx).
Proof.
  intros Hidx. induction todo as [|u0 todo IH]; intros st i st' Hrun; cbn in Hrun.
  - injection Hrun as <-. split; [done|].
    intros u [[Hu _]|Hu]; [by apply elem_of_nil in Hu|done].
  - destruct (eval_iteration _ _ _ _ _ _ st i u0) as [st2|] eqn:Eit; [|done].
    apply eval_iteration_Done in Eit as (st1 & Hrank & Hlog).
    apply rank_user_Done in Hrank as (p & t & _ & Ht & _ & Htir & _).
    apply log_metrics_Done in Hlog as (_ & Htir2 & _).
    rewrite Hidx in Ht. injection Ht as <-.
    assert (Htab : true_item_ratings st2 = <[u0 := Z.of_nat <$> idx]> (true_item_ratings st))
      by congruence.
    destruct (IH _ _ _ Hrun) as [Hlen Hrows].
    rewrite Htab, length_insert in Hlen. split; [done|].
    intros u Hu. apply Hrows. rewrite Htab, length_insert.
    destruct (decide (u = u0)) as [->|Hne].
    + destruct Hu as [[_ Hlt]|Hu].
      * right. by apply list_lookup_insert_eq.
      * right. apply list_lookup_insert_eq. by eapply lookup_lt_Some.
    + destruct Hu as [[Hu Hlt]|Hu].
      * left. apply elem_of_cons in Hu as [?|?]; done.
      * right. by rewrite list_lookup_insert_ne.
Qed.

(** C9: the ground-truth row is the ranking of the ratings of the whole
    batch, whoever the current user is; so, at the end of the loop, any two
    users of the batch have the same ground-truth row. *)
Theorem true_rows_equal_for_all_users self gu gt features ratings k users st u1 u2 :
  column 0 features = inr users →
  eval_run self gu gt (features, ratings) k = Done st →
  u1 ∈ users → u2 ∈ users →
  ∃ idx, topk ratings k = inr idx ∧
         true_item_ratings st !! u1 = Some (Z.of_nat <$> idx) ∧
         true_item_ratings st !! u2 = Some (Z.of_nat <$> idx).
Proof.
  intros Hcol Hrun Hu1 Hu2.
  unfold eval_run in Hrun. rewrite Hcol in Hrun.
  destruct (column 1 features) as [|items]; [done|].
  destruct users as [|u0 users]; [done|]. cbv iota in Hrun.
  assert (∃ idx, topk ratings k = inr idx) as [idx Hidx].
  { pose proof Hrun as Hfirst. cbn [eval_loop] in Hfirst.
    destruct (eval_iteration _ _ _ _ _ _ _ 0 u0) as [st2|] eqn:Eit; [|done].
    apply eval_iteration_Done in Eit as (st1 & Hrank & _).
    apply rank_user_Done in Hrank as (p & t & _ & Ht & _). eauto. }
  exists idx. split; [done|].
  destruct (eval_loop_true_rows _ _ _ _ _ _ _ _ Hidx _ _ _ Hrun) as [_ Hrows].
  split; apply Hrows; left; (split; [done|]); by apply user_row_in_range.
Qed.

(** C8: [roc_auc] changes only under the guard; and whenever the guard is
    false in the first pass of the loop, building the dict reads the
    unassigned local and [eval_step] ends in an [UnboundLocalError], which
    is a [NameError]. *)
Theorem eval_step_roc_auc_unbound self gu gt features ratings k u0 users items st1 :
  column 0 features = inr (u0 :: users) →
  column 1 features = inr items →
  rank_user self items ratings k (eval_init gu gt (u0 :: users) k) 0 u0 = Done st1 →
  roc_auc_guard (user_item_ratings st1) = false →
  (∀ us its loss k' st st',
     log_metrics self us its loss k' st = Done st' →
     roc_auc st' ≠ roc_auc st → roc_auc_guard (user_item_ratings st) = true) ∧
  eval_step self gu gt (features, ratings) k
    = (out st1, Some (UnboundLocalError "roc_auc")) ∧
  is_NameError (UnboundLocalError "roc_auc") = true.
Proof.
  intros Hc0 Hc1 Hrank Hguard. split_and!; [|..|done].
  - intros *. apply log_metrics_assigns_under_guard.
  - unfold eval_step. rewrite (eval_run_unfold _ _ _ _ _ _ _ _ _ Hc0 Hc1).
    cbn [eval_loop]. unfold eval_iteration. rewrite Hrank.
    rewrite log_metrics_unbound; [done| |done].
    apply rank_user_Done in Hrank as (_ & _ & _ & _ & _ & _ & Hr & _).
    by rewrite Hr.
Qed.

End EvalRun.

(** A run in which the guard fails at once: the table comes back filled
    with sevens and the first predicted row is [[1]]. *)
Lemma eval_step_roc_auc_unbound_witness :
  eval_step toy_module sevens sevens two_users 1
    = ([Display 1 [1] [0]], Some (UnboundLocalError "roc_auc")).
Proof.
  exact (proj1 (proj2
    (eval_step_roc_auc_unbound toy_module sevens sevens
       [[1; 10]; [2; 20]] [5; 1]%Z 1 1 [2] [10; 20] _
       eq_refl eq_refl eq_refl eq_refl))).
Defined.

(** A run that completes, with the same ground-truth row for both users. *)
Lemma true_rows_equal_for_all_users_witness :
  ∃ st idx, eval_run toy_module stale stale two_users 1 = Done st ∧
            topk (F := Z) [5; 1]%Z 1 = inr idx ∧
            true_item_ratings st !! 1 = Some (Z.of_nat <$> idx) ∧
            true_item_ratings st !! 2 = Some (Z.of_nat <$> idx).
Proof.
  assert (∃ st, eval_run toy_module stale stale two_users 1 = Done st) as [st Hrun]
    by (eexists; vm_compute; reflexivity).
  destruct (true_rows_equal_for_all_users toy_module stale stale
              [[1; 10]; [2; 20]] [5; 1]%Z 1 [1; 2] st 1 2 eq_refl Hrun)
    as (idx & Hidx & Hrow1 & Hrow2).
  - apply list_elem_of_here.
  - apply list_elem_of_further, list_elem_of_here.
  - by exists st, idx.
Defined.

(** ** eval_step: when the metrics are computed *)

Section EvalMetrics.
Context {F M : Type} `{Score F} `{Externals F M}.
Implicit Types (self : RecommenderModule F) (st : EvalState M).

Lemma printed_dicts_app (a b : list (Event M)) :
  printed_dicts (a ++ b) = printed_dicts a ++ printed_dicts b.
Proof. apply omap_app. Qed.

Lemma table_after_snoc self items k t0 processed u :
  table_after self items k t0 (processed ++ [u])
    = <[u := predicted_row self items k u]> (table_after self items k t0 processed).
Proof. unfold table_after. by rewrite foldl_app. Qed.

(** One pass, from a state whose table holds the rows of [processed]: the
    pass goes through, extends the table by the row of [u] and prints one
    dict computed over the extended table. *)
Lemma eval_iteration_spec self users items ratings loss k t0 processed st i u :
  k ≤ length (recommender self (user_batch u items, None)) →
  k ≤ length ratings →
  user_item_ratings st = table_after self items k t0 processed →
  is_Some (roc_auc st)
    ∨ roc_auc_guard (table_after self items k t0 (processed ++ [u])) = true →
  ∃ st' d,
    eval_iteration self users items ratings loss k st i u = Done st' ∧
    user_item_ratings st' = table_after self items k t0 (processed ++ [u]) ∧
    is_Some (roc_auc st') ∧
    printed_dicts (out st') = printed_dicts (out st) ++ [d] ∧
    logged_over users items loss k (table_after self items k t0 (processed ++ [u])) d.
Proof.
  intros Hk Hr Htab Hroc.
  destruct (rank_user_total self items ratings k st i u Hk Hr) as [st1 Hrank].
  pose proof Hrank as (p & t & Hp & _ & Hu & _ & Hroc1 & Hout1)%rank_user_Done.
  assert (Htab1 : user_item_ratings st1 = table_after self items k t0 (processed ++ [u])).
  { rewrite table_after_snoc, Hu, Htab. unfold predicted_row. by rewrite Hp. }
  destruct (log_metrics_total self users items loss k st1) as (st2 & Hlog & Hsome).
  { rewrite Htab1, Hroc1. destruct Hroc; auto. }
  pose proof Hlog as (Hu2 & _ & _ & d & _ & Hd1 & Hd2 & Hd3 & Hd4 & Hd5 & Hd6 & Hout2)%log_metrics_Done.
  exists st2, d. unfold eval_iteration. rewrite Hrank. split_and!; [done|congruence|done| |].
  - rewrite Hout2, Hout1, !printed_dicts_app. cbn.
    destruct (decide (i = 0)), (use_wandb self); cbn; by rewrite ?app_nil_r.
  - rewrite <-Htab1. by repeat split.
Qed.

Lemma eval_loop_spec self users items ratings loss k t0 :
  (∀ u, k ≤ length (recommender self (user_batch u items, None))) →
  k ≤ length ratings →
  (users ≠ [] → roc_auc_guard (table_after self items k t0 (take 1 users)) = true) →
  ∀ todo processed st,
    users = processed ++ todo →
    user_item_ratings st = table_after self items k t0 processed →
    is_Some (roc_auc st) ∨ processed = [] →
    length (printed_dicts (out st)) = length processed →
    (∀ j d, printed_dicts (out st) !! j = Some d →
            logged_over users items loss k (table_after self items k t0 (take (S j) users)) d) →
    ∃ st',
      eval_loop self users items ratings loss k st (length processed) todo = Done st' ∧
      user_item_ratings st' = table_after self items k t0 users ∧
      length (printed_dicts (out st')) = length users ∧
      (∀ j d, printed_dicts (out st') !! j = Some d →
              logged_over users items loss k (table_after self items k t0 (take (S j) users)) d).
Proof.
  intros Hk Hr Hfirst todo.
  induction todo as [|u todo IH]; intros processed st Husers Htab Hroc Hlen Hlogged.
  - rewrite app_nil_r in Husers. subst processed. exists st. by split_and!.
  - destruct (eval_iteration_spec self users items ratings loss k t0 processed st
                (length processed) u (Hk u) Hr Htab)
      as (st' & d & Hit & Htab' & Hsome & Hpr & Hd).
    { destruct Hroc as [?| ->]; [by left|right].
      cbn in *. rewrite Husers in Hfirst. by apply Hfirst. }
    cbn [eval_loop]. rewrite Hit.
    replace (S (length processed)) with (length (processed ++ [u]))
      by (rewrite length_app; cbn; lia).
    apply IH; [by rewrite <-app_assoc|done|by left| |].
    + rewrite Hpr, !length_app, Hlen. done.
    + intros j d' Hj. rewrite Hpr in Hj.
      destruct (decide (j < length processed)) as [Hlt|Hge].
      * rewrite lookup_app_l in Hj by lia. by apply Hlogged.
      * rewrite lookup_app_r in Hj by lia.
        assert (j = length processed) as ->.
        { apply lookup_lt_Some in Hj. cbn in Hj. lia. }
        rewrite Hlen, Nat.sub_diag in Hj. injection Hj as <-.
        replace (take (S (length processed)) users) with (processed ++ [u]); [done|].
        rewrite Husers.
        change (processed ++ u :: todo) with (processed ++ [u] ++ todo).
        rewrite app_assoc.
        by rewrite take_app_length' by (rewrite length_app; cbn; lia).
Qed.

(** What the loop does with the metrics, on any batch: when the rankings
    are possible and the guard of [roc_auc] holds in the first pass,
    [eval_step] goes through; for each row of the batch it scores every
    item of the batch for the user of the row and ranks the scores into a
    top-k row; and it computes the metrics within that pass, so that it
    prints one dict per row of the batch, the dict of pass [j] over a table
    in which only the rows of the first [j+1] users are written. *)
Theorem eval_step_logs_every_pass self gu gt features ratings k users items :
  column 0 features = inr users →
  column 1 features = inr items →
  users ≠ [] →
  k ≤ length items →
  length ratings = length items →
  (∀ u, length (recommender self (user_batch u items, None)) = length items) →
  roc_auc_guard
    (table_after self items k (np_empty gu (max_list users + 1) k) (take 1 users)) = true →
  ∃ evs,
    eval_step self gu gt (features, ratings) k = (evs, None) ∧
    length (printed_dicts evs) = length features ∧
    (∀ u, u ∈ users →
       ∃ p, is_topk (recommender self (user_batch u items, None)) k p ∧
            predicted_row self items k u = Z.of_nat <$> p) ∧
    (∀ j d, printed_dicts evs !! j = Some d →
       logged_over users items
         (loss_call (loss_fn self) (recommender self (with_ratings (features, ratings))) ratings)
         k
         (table_after self items k (np_empty gu (max_list users + 1) k) (take (S j) users))
         d).
Proof.
  intros Hc0 Hc1 Hne Hk Hrat Hrec Hguard.
  assert (Hn : length users = length features).
  { unfold column in Hc0. destruct (mapM _ features) as [c|] eqn:Ec; [|done].
    injection Hc0 as ->. symmetry. by eapply length_mapM. }
  destruct users as [|u0 users]; [done|].
  destruct (eval_loop_spec self (u0 :: users) items ratings
              (loss_call (loss_fn self) (recommender self (with_ratings (features, ratings))) ratings)
              k (np_empty gu (max_list (u0 :: users) + 1) k)) with
      (todo := u0 :: users) (processed := @nil nat)
      (st := eval_init (M := M) gu gt (u0 :: users) k)
    as (st' & Hrun & _ & Hlen & Hlogged);
    [intros u; rewrite Hrec; lia|lia|done|done|done|by right|done|
     intros j d Hj; cbn in Hj; by rewrite lookup_nil in Hj|].
  exists (out st'). unfold eval_step.
  rewrite (eval_run_unfold _ _ _ _ _ _ _ _ _ Hc0 Hc1).
  cbn [length] in Hrun. rewrite Hrun. split_and!; [done|congruence| |done].
  intros u _. unfold predicted_row.
  destruct (topk_Some (recommender self (user_batch u items, None)) k) as [p Hp];
    [rewrite Hrec; lia|].
  exists p. rewrite Hp. split; [by apply topk_is_topk|done].
Qed.

End EvalMetrics.

(** ** eval_step on two users *)

(** The run of [eval_step] on [two_users] with [k = 1], the tables coming
    back from [np.empty] as [stale]. *)
Lemma eval_step_logs_every_pass_witness :
  ∃ evs, eval_step toy_module stale stale two_users 1 = (evs, None) ∧
         length (printed_dicts evs) = 2.
Proof.
  destruct (eval_step_logs_every_pass toy_module stale stale
              [[1; 10]; [2; 20]] [5; 1]%Z 1 [1; 2] [10; 20])
    as (evs & Hrun & Hlen & _);
    [reflexivity|reflexivity|done|cbn; lia|reflexivity|intros u; reflexivity
    |vm_compute; reflexivity|].
  exists evs. split; assumption.
Defined.

(** C3 at the batch [two_users] with [k = 1]: the metrics are computed
    twice, once in each pass of the loop, not once after it; and the first
    time before the second user is processed: row 2 of the table, the row
    of user 2, still holds the 9 that [np.empty] left there, and the
    metrics over all users read it. *)
Lemma eval_step_metrics_not_once_per_batch :
  ∃ evs, eval_step toy_module stale stale two_users 1 = (evs, None) ∧
         length (printed_dicts evs) ≠ 1 ∧
         ld_personalization <$> printed_dicts evs
           = [ call_personalization_score [[0]; [1]; [9]]%Z;
               call_personalization_score [[0]; [1]; [0]]%Z ].
Proof. eexists. split; [vm_compute; reflexivity|]. split; [cbn; lia|reflexivity]. Qed.

(** C1 at the batch [two_users] with [k = 1]: the run completes and the
    ground-truth row written for user 2 is position 0, the row of user 1
    (the best rating of the whole batch); the top-1 of user 2's own rows is
    position 1.  The predicted rows are per user: position 1 for user 1,
    position 0 for user 2. *)
Theorem eval_step_ground_truth_not_per_user :
  ∃ st, eval_run toy_module stale stale two_users 1 = Done st ∧
        user_item_ratings st = [[0]; [1]; [0]]%Z ∧
        true_item_ratings st !! 2 = Some [0%Z] ∧
        ¬ is_user_topk [1; 2] [5; 1]%Z 2 1 [0] ∧
        is_user_topk [1; 2] [5; 1]%Z 2 1 [1].
Proof.
  eexists. split; [vm_compute; reflexivity|]. split_and!; [done|done| |].
  - intros (_ & Hrows & _).
    specialize (Hrows 0 (list_elem_of_here _ _)). discriminate.
  - split_and!; [done| |].
    + intros i ->%list_elem_of_singleton. done.
    + intros i j x y ->%list_elem_of_singleton Hj Hu.
      destruct j as [|[|j]]; [done| |done].
      exfalso. apply Hj, list_elem_of_here.
Qed.

(** C2 at the batch [two_users] with [k = 1]: in both passes [ndcg_score]
    receives the flattened predicted rows twice, as predictions and as
    reference; the ground-truth rows, which differ from them, reach no
    metric. *)
Theorem eval_step_ndcg_reference_is_prediction :
  ∃ evs st,
    eval_step toy_module stale stale two_users 1 = (evs, None) ∧
    eval_run toy_module stale stale two_users 1 = Done st ∧
    ld_ndcg <$> printed_dicts evs
      = [ call_ndcg_score [0; 1; 9]%Z [0; 1; 9]%Z;
          call_ndcg_score [0; 1; 0]%Z [0; 1; 0]%Z ] ∧
    concat (user_item_ratings st) = [0; 1; 0]%Z ∧
    concat (true_item_ratings st) = [0; 0; 0]%Z.
Proof.
  eexists _, _. split; [vm_compute; reflexivity|].
  split; [vm_compute; reflexivity|]. by split_and!.
Qed.

(** ** get_feature_embeddings *)

Section Embeddings.
Context {F : Type}.
Implicit Types (self : RecModel F) (features : Features).

(** The vectors of one column, example by example, are what the loop
    computes for that column. *)
Lemma embed_feature_Some self features i name emb col :
  emb_dict self !! name = Some emb →
  Forall2 (λ ex v, vector_at self ex (i, name) = Some v) features col →
  embed_feature self features i name = inr (emb_dim emb, col).
Proof.
  intros Hemb Hcol. unfold embed_feature. rewrite Hemb.
  assert (∃ ids, mapM (λ row : list nat, row !! i) features = Some ids ∧
                 mapM (λ id, weight emb !! id) ids = Some col) as (ids & Hids & Hvs).
  { induction Hcol as [|ex v features col Hv _ (ids & Hids & Hvs)].
    - by exists [].
    - unfold vector_at in Hv. cbn in Hv. rewrite Hemb in Hv. cbn in Hv.
      destruct (ex !! i) as [id|] eqn:Eid; [|done]. cbn in Hv.
      exists (id :: ids). cbn. rewrite Eid, Hids, Hv, Hvs. done. }
  unfold column, embed. by rewrite Hids, Hvs.
Qed.

(** Examples without columns have no vectors. *)
Lemma Forall2_nil_columns {A B C} (R : A → B → C → Prop) (l : list A) (vss : list (list C)) :
  Forall2 (λ a vs, Forall2 (R a) [] vs) l vss → vss = replicate (length l) [].
Proof.
  induction 1 as [|a vs l vss Hvs _ IH]; [done|].
  apply Forall2_nil_inv_l in Hvs. cbn. by rewrite Hvs, IH.
Qed.

(** The vectors of the examples split into those of the first column and
    those of the other columns. *)
Lemma Forall2_cons_columns {A B C} (R : A → B → C → Prop) (l : list A) c cs
    (vss : list (list C)) :
  Forall2 (λ a vs, Forall2 (R a) (c :: cs) vs) l vss →
  ∃ col vss', vss = zip_with cons col vss' ∧
              Forall2 (λ a v, R a c v) l col ∧
              Forall2 (λ a vs, Forall2 (R a) cs vs) l vss'.
Proof.
  induction 1 as [|a vs l vss Hvs _ (col & vss' & -> & Hcol & Hrest)].
  - by exists [], [].
  - apply Forall2_cons_inv_l in Hvs as (v & vs' & Hv & Hvs' & ->).
    exists (v :: col), (vs' :: vss'). split_and!; [done|by constructor..].
Qed.

Lemma embed_loop_spec self features d names :
  (∀ name, name ∈ names →
     ∃ emb, emb_dict self !! name = Some emb ∧ emb_dim emb = d) →
  ∀ i vss,
    Forall2 (λ ex vs,
               Forall2 (λ c v, vector_at self ex c = Some v)
                       (zip (seq i (length names)) names) vs)
            features vss →
    ∃ lines embeddings,
      embed_loop self features i names = (lines, inr embeddings) ∧
      stack_dim1 (length features) (embeddings.*2) = vss ∧
      Forall (λ e, e.1 = d) embeddings ∧
      length embeddings = length names.
Proof.
  induction names as [|name names IH]; intros Hwf i vss Hvss.
  - exists [], []. cbn in *. split_and!; [done| |done..].
    symmetry. by eapply (Forall2_nil_columns (λ ex c v, vector_at self ex c = Some v)).
  - cbn [length seq zip zip_with] in Hvss.
    apply (Forall2_cons_columns (λ ex c v, vector_at self ex c = Some v))
      in Hvss as (col & vss' & -> & Hcol & Hrest).
    destruct (Hwf name) as (emb & Hemb & Hd); [apply list_elem_of_here|].
    destruct (IH (λ nm Hnm, Hwf nm (list_elem_of_further _ _ _ Hnm)) (S i) vss' Hrest)
      as (lines & embeddings & Hloop & Hstack & Hdims & Hlen).
    cbn [embed_loop]. rewrite (embed_feature_Some _ _ _ _ _ _ Hemb Hcol), Hloop, Hd.
    eexists _, _. split; [done|]. cbn. rewrite Hstack, Hlen.
    split_and!; [done|by constructor|done].
Qed.

Lemma length_concat_uniform {A} (rows : list (list A)) w :
  Forall (λ row, length row = w) rows → length (concat rows) = length rows * w.
Proof.
  induction 1 as [|row rows Hrow _ IH]; [done|].
  cbn. rewrite length_app, Hrow, IH. done.
Qed.

Lemma concat_row {A} (rows : list (list A)) w i row :
  Forall (λ row, length row = w) rows →
  rows !! i = Some row →
  take w (drop (i * w) (concat rows)) = row.
Proof.
  intros Hw. revert i. induction Hw as [|r rows Hr _ IH]; intros i Hi; [done|].
  destruct i as [|i].
  - injection Hi as ->. rewrite Nat.mul_0_l, drop_0. cbn [concat].
    by rewrite take_app_length'.
  - cbn [concat]. replace (S i * w) with (w + i * w) by lia.
    rewrite drop_app_add' by done. by apply IH.
Qed.

Lemma example_vectors_lengths self d example vs :
  model_with_dim self d →
  example_vectors self example = Some vs →
  length vs = length (emb_columns self) ∧ Forall (λ v, length v = d) vs.
Proof.
  intros (_ & _ & _ & Hwf) Hvs%mapM_Some. split.
  - apply Forall2_length in Hvs. rewrite <-Hvs.
    rewrite <-(length_fmap fst), fst_enumerate. apply length_seq.
  - eapply Forall2_Forall_r; [exact Hvs|].
    apply Forall_forall. intros [i name] Hc%enumerate_lookup v Hv.
    destruct (Hwf name) as (emb & Hemb & _ & Hrows); [by eapply list_elem_of_lookup_2|].
    unfold vector_at in Hv. cbn in Hv. rewrite Hemb in Hv. cbn in Hv.
    destruct (example !! i) as [id|]; [|done]. cbn in Hv.
    by eapply (Forall_lookup_1 _ _ _ _ Hrows).
Qed.

(** The rows of the examples are the concatenations of their vectors. *)
Lemma example_rows_vectors self features rows :
  mapM (example_row self) features = Some rows →
  ∃ vss, Forall2 (λ ex vs, example_vectors self ex = Some vs) features vss ∧
         rows = @concat F <$> vss.
Proof.
  intros Hrows%mapM_Some.
  induction Hrows as [|ex row features rows Hrow _ (vss & Hvss & ->)].
  - by exists [].
  - unfold example_row in Hrow.
    destruct (example_vectors self ex) as [vs|] eqn:Evs; [|done].
    injection Hrow as <-. exists (vs :: vss). split; [by constructor|done].
Qed.

(** The tensor stacked by the function, before [squeeze] and [view]. *)
Lemma stacked_embeddings self features d rows :
  model_with_dim self d →
  mapM (example_row self) features = Some rows →
  ∃ lines embeddings,
    embed_loop self features 0 (emb_columns self) = (lines, inr embeddings) ∧
    torch_stack_dim1 (length features) embeddings
      = inr {| shape := [length features; length (emb_columns self); d];
               data := concat rows |} ∧
    length rows = length features ∧
    Forall (λ row, length row = length (emb_columns self) * d) rows.
Proof.
  intros Hmodel (vss & Hvss & ->)%example_rows_vectors.
  pose proof Hmodel as (Hne & Hd & Hsize & Hwf).
  destruct (embed_loop_spec self features d (emb_columns self)) with (i := 0) (vss := vss)
    as (lines & embeddings & Hloop & Hstack & Hdims & Hlen).
  { intros name Hname. destruct (Hwf name Hname) as (emb & ? & ? & _). eauto. }
  { eapply Forall2_impl; [exact Hvss|]. intros ex vs Hvs. by apply mapM_Some. }
  exists lines, embeddings. split; [done|]. split_and!.
  - unfold torch_stack_dim1.
    destruct embeddings as [|[d0 col0] embeddings'] eqn:E.
    { destruct (emb_columns self); done. }
    rewrite <-E in *. assert (d0 = d) as ->.
    { rewrite E in Hdims. by apply Forall_cons_1 in Hdims as [? _]. }
    replace (forallb (λ e : nat * list (list F), e.1 =? d) embeddings) with true.
    + by rewrite Hstack, Hlen.
    + symmetry. apply forallb_forall. intros e He%list_elem_of_In.
      rewrite Forall_forall in Hdims. apply Nat.eqb_eq. by apply Hdims.
  - rewrite length_fmap. symmetry. by eapply Forall2_length.
  - apply Forall_fmap. eapply Forall2_Forall_r; [exact Hvss|].
    apply Forall_forall. intros ex _ vs Hvs. cbn.
    destruct (example_vectors_lengths self d ex vs Hmodel Hvs) as [Hm Hv].
    by rewrite (length_concat_uniform vs d Hv), Hm.
Qed.

(** C6, amended: on a batch of [n] examples that the model can embed, with
    [m] embedding columns of dimension [d], [concat=True] returns a tensor
    of shape [(n, m*d)] whose row [i] is the concatenation of the embedding
    vectors of example [i]; [concat=False] returns the entries of the
    per-feature embeddings stacked along the feature axis, under the shape
    [(n, m, d)] with every axis of size one removed; what it returns is the
    stack itself exactly when [n], [m] and [d] all differ from one. *)
Theorem get_feature_embeddings_spec self features r d rows :
  model_with_dim self d →
  mapM (example_row self) features = Some rows →
  let n := length features in
  let m := length (emb_columns self) in
  (∃ t, (get_feature_embeddings self (features, r) true).2 = inr t ∧
        shape t = [n; m * d] ∧ data t = concat rows ∧
        ∀ i example, features !! i = Some example →
                     example_row self example = Some (tensor_row t i)) ∧
  (∃ stacked t',
     (stack_feature_embeddings self features).2 = inr stacked ∧
     shape stacked = [n; m; d] ∧ data stacked = concat rows ∧
     (get_feature_embeddings self (features, r) false).2 = inr t' ∧
     t' = squeeze stacked ∧
     shape t' = filter (λ s, s ≠ 1) [n; m; d] ∧ data t' = concat rows ∧
     (t' = stacked ↔ n ≠ 1 ∧ m ≠ 1 ∧ d ≠ 1)).
Proof.
  intros Hmodel Hrows n m.
  destruct (stacked_embeddings self features d rows Hmodel Hrows)
    as (lines & embeddings & Hloop & Hstack & Hn & Hw).
  pose proof Hmodel as (Hne & Hd & Hsize & _).
  assert (Hm : 0 < m) by (unfold m; destruct (emb_columns self); [done|cbn; lia]).
  unfold get_feature_embeddings, stack_feature_embeddings.
  rewrite Hloop. cbn [snd]. rewrite Hstack.
  split.
  - unfold view_rows, squeeze. cbn [data].
    rewrite (length_concat_uniform rows (m * d) Hw), Hn, Hsize. fold n m.
    rewrite decide_True by (split; [nia|apply Nat.Div0.mod_mul]).
    rewrite Nat.div_mul by nia.
    eexists. split_and!; [done..|].
    intros i example Hi. unfold tensor_row. cbn.
    apply mapM_Some in Hrows.
    destruct (Forall2_lookup_l _ _ _ _ _ Hrows Hi) as (row & Hrow & ->).
    f_equal. symmetry. by apply concat_row.
  - eexists _, _. split_and!; [done..|]. fold n m.
    unfold squeeze. cbn [shape data]. split.
    + intros Heq. apply (f_equal shape) in Heq. cbn [shape] in Heq.
      rewrite !filter_cons, filter_nil in Heq.
      repeat case_decide; simplify_eq; done.
    + intros (Hn1 & Hm1 & Hd1).
      rewrite !filter_cons, filter_nil. by rewrite !decide_True by done.
Qed.

End Embeddings.

Lemma toy_model_with_dim : model_with_dim toy_model 2.
Proof.
  split_and!; [done|lia|done|].
  intros name [->|[->|[]%elem_of_nil]%elem_of_cons]%elem_of_cons;
    eexists; (split; [vm_compute; reflexivity|]); (split; [done|]);
    repeat constructor.
Qed.

(** Three examples through [toy_model]. *)
Lemma get_feature_embeddings_spec_witness :
  (∃ t, (get_feature_embeddings toy_model ([[0; 1]; [1; 0]; [1; 1]], None) true).2 = inr t ∧
        shape t = [3; 4] ∧
        data t = [1; 2; 7; 8; 3; 4; 5; 6; 3; 4; 7; 8]%Z) ∧
  (∃ t, (get_feature_embeddings toy_model ([[0; 1]; [1; 0]; [1; 1]], None) false).2 = inr t ∧
        shape t = [3; 2; 2]).
Proof.
  destruct (get_feature_embeddings_spec toy_model [[0; 1]; [1; 0]; [1; 1]] None 2
              [[1; 2; 7; 8]; [3; 4; 5; 6]; [3; 4; 7; 8]]%Z toy_model_with_dim)
    as [(t & Ht & Hshape & Hdata & _) (stacked & t' & _ & _ & _ & Hf & _ & Hs & _)];
    [vm_compute; reflexivity|].
  split.
  - by exists t.
  - by exists t'.
Defined.

(** C6, as stated, fails for [concat=False]: on a batch of one example the
    stack has shape [(1, 2, 2)], and what is returned has shape [(2, 2)]. *)
Lemma get_feature_embeddings_unstacked :
  (stack_feature_embeddings toy_model [[0; 1]]).2
    = inr {| shape := [1; 2; 2]; data := [1; 2; 7; 8]%Z |} ∧
  (get_feature_embeddings toy_model ([[0; 1]], None) false).2
    = inr {| shape := [2; 2]; data := [1; 2; 7; 8]%Z |} ∧
  (get_feature_embeddings toy_model ([[0; 1]], None) false).2
    ≠ (stack_feature_embeddings toy_model [[0; 1]]).2.
Proof.
  assert (Hs : (stack_feature_embeddings toy_model [[0; 1]]).2
               = inr {| shape := [1; 2; 2]; data := [1; 2; 7; 8]%Z |})
    by (vm_compute; reflexivity).
  assert (Hg : (get_feature_embeddings toy_model ([[0; 1]], None) false).2
               = inr {| shape := [2; 2]; data := [1; 2; 7; 8]%Z |})
    by (vm_compute; reflexivity).
  split_and!; [done..|]. rewrite Hs, Hg. discriminate.
Qed.

(** ** eval_step: the shape of a trace *)

Section EvalTrace.
Context {F M : Type} `{Score F} `{Externals F M}.
Implicit Types (self : RecommenderModule F) (st : EvalState M).

Lemma eval_step_outcome self gu gt batch k :
  eval_step self gu gt batch k
    = (events_of (eval_run self gu gt batch k), exn_of (eval_run self gu gt batch k)).
Proof. unfold eval_step. by destruct (eval_run self gu gt batch k). Qed.

Lemma topk_error (xs : list F) k e :
  topk xs k = inl e → e = RuntimeError_topk ∧ length xs < k.
Proof. unfold topk. case_decide; [done|]. intros [= <-]. split; [done|lia]. Qed.

(** A ranking that fails leaves the output as it was, and fails with the
    error of [torch.topk]. *)
Lemma rank_user_Raised self items ratings k st i u e o :
  rank_user self items ratings k st i u = Raised e o →
  o = out st ∧ e = RuntimeError_topk ∧
  (length (recommender self (user_batch u items, None)) < k ∨ length ratings < k).
Proof.
  unfold rank_user.
  destruct (topk (recommender self _) k) as [e1|p] eqn:E1.
  - intros [= <- <-]. apply topk_error in E1 as [-> ?]. auto.
  - destruct (topk ratings k) as [e2|t] eqn:E2; [|done].
    intros [= <- <-]. apply topk_error in E2 as [-> ?]. auto.
Qed.

(** The metrics block fails only on the unassigned [roc_auc]. *)
Lemma log_metrics_Raised self users items loss k st e o :
  log_metrics self users items loss k st = Raised e o →
  o = out st ∧ e = UnboundLocalError "roc_auc" ∧
  roc_auc st = None ∧ roc_auc_guard (user_item_ratings st) = false.
Proof.
  unfold log_metrics, roc_auc_guard. cbv zeta.
  destruct (_ && _) eqn:Eg; [done|].
  destruct (roc_auc st); [done|]. by intros [= <- <-].
Qed.

(** One pass of the loop, taken apart. *)
Lemma eval_loop_cons self users items ratings loss k st i u todo :
  eval_loop self users items ratings loss k st i (u :: todo) =
    match rank_user self items ratings k st i u with
    | Raised e o => Raised e o
    | Done st1 =>
      match log_metrics self users items loss k st1 with
      | Raised e o => Raised e o
      | Done st2 => eval_loop self users items ratings loss k st2 (S i) todo
      end
    end.
Proof.
  cbn [eval_loop]. unfold eval_iteration.
  destruct (rank_user self items ratings k st i u); [|done].
  by destruct (log_metrics self users items loss k st0).
Qed.

(** The events of the loop from pass [i] on: at most the display of pass 0,
    then, dict after dict, a print and its log. *)
Lemma eval_loop_trace self users items ratings loss k todo :
  ∀ st i, ∃ disp ds,
    events_of (eval_loop self users items ratings loss k st i todo)
      = out st ++ disp ++ flat_map (pass_events (use_wandb self)) ds ∧
    Forall (λ d, ld_eval_loss d = loss) ds ∧
    ((disp = [] ∧ (i ≠ 0 ∨ ds = [])) ∨
     (i = 0 ∧ ∃ u todo' p t,
        todo = u :: todo' ∧ disp = [Display u p t] ∧
        topk (recommender self (user_batch u items, None)) k = inr p ∧
        topk ratings k = inr t)).
Proof.
  induction todo as [|u todo IH]; intros st i.
  - exists [], []. cbn. rewrite app_nil_r. split_and!; [done|done|]. left. auto.
  - rewrite eval_loop_cons.
    destruct (rank_user self items ratings k st i u) as [st1|e o] eqn:Erank.
    2:{ apply rank_user_Raised in Erank as (-> & _).
        exists [], []. cbn. rewrite app_nil_r. split_and!; [done|done|]. left. auto. }
    pose proof Erank as (p & t & Hp & Ht & _ & _ & _ & Hout1)%rank_user_Done.
    set (disp := if decide (i = 0) then [Display (M := M) u p t] else []) in *.
    assert (Hdisp : (disp = [] ∧ i ≠ 0) ∨
                    (i = 0 ∧ ∃ u' todo' p' t',
                       u :: todo = u' :: todo' ∧ disp = [Display u' p' t'] ∧
                       topk (recommender self (user_batch u' items, None)) k = inr p' ∧
                       topk ratings k = inr t')).
    { unfold disp. destruct (decide (i = 0)); [right|left; done].
      split; [done|]. by exists u, todo, p, t. }
    destruct (log_metrics self users items loss k st1) as [st2|e o] eqn:Elog.
    2:{ apply log_metrics_Raised in Elog as (-> & _).
        exists disp, []. cbn. rewrite app_nil_r. split_and!; [done|done|].
        destruct Hdisp as [[? ?]|?]; [left|right]; auto. }
    pose proof Elog as (_ & _ & _ & d & _ & Hloss & _ & _ & _ & _ & _ & Hout2)%log_metrics_Done.
    destruct (IH st2 (S i)) as (disp' & ds & Hev & Hds & Hd').
    destruct Hd' as [[-> _]|[? _]]; [|done].
    exists disp, (d :: ds). split_and!.
    + rewrite Hev, Hout2, Hout1. cbn. unfold pass_events.
      by rewrite <-!app_assoc.
    + by constructor.
    + destruct Hdisp as [[? ?]|?]; [left|right]; auto.
Qed.

(** The events of [eval_step]: nothing, or the display of the first row
    followed, dict after dict, by a print and its log. *)
Lemma eval_step_trace self gu gt features ratings k :
  ∃ disp ds,
    (eval_step self gu gt (features, ratings) k).1
      = disp ++ flat_map (pass_events (use_wandb self)) ds ∧
    Forall (λ d, ld_eval_loss d
                 = loss_call (loss_fn self)
                     (recommender self (with_ratings (features, ratings))) ratings) ds ∧
    ((disp = [] ∧ ds = []) ∨
     ∃ u users items p t,
       column 0 features = inr (u :: users) ∧ column 1 features = inr items ∧
       disp = [Display u p t] ∧
       topk (recommender self (user_batch u items, None)) k = inr p ∧
       topk ratings k = inr t).
Proof.
  rewrite eval_step_outcome. cbn [fst]. unfold eval_run.
  destruct (column 0 features) as [e|users] eqn:E0.
  { exists [], []. cbn. split_and!; [done|done|by left]. }
  destruct (column 1 features) as [e|items] eqn:E1.
  { exists [], []. cbn. split_and!; [done|done|by left]. }
  destruct users as [|u users].
  { exists [], []. cbn. split_and!; [done|done|by left]. }
  destruct (eval_loop_trace self (u :: users) items ratings
              (loss_call (loss_fn self) (recommender self (with_ratings (features, ratings))) ratings)
              k (u :: users) (eval_init gu gt (u :: users) k) 0)
    as (disp & ds & Hev & Hds & Hdisp).
  exists disp, ds. split_and!; [by rewrite Hev|done|].
  destruct Hdisp as [[-> [?| ->]]|[_ (u' & todo' & p & t & [= <- <-] & -> & Hp & Ht)]];
    [done|by left|right].
  by exists u, users, items, p, t.
Qed.

Lemma printed_dicts_passes w (ds : list (LogDict M)) :
  printed_dicts (flat_map (pass_events w) ds) = ds.
Proof.
  unfold printed_dicts. induction ds as [|d ds IH]; [done|].
  destruct w; cbn in *; by rewrite IH.
Qed.

Lemma wandb_dicts_passes w (ds : list (LogDict M)) :
  wandb_dicts (flat_map (pass_events w) ds) = if w then ds else [].
Proof.
  unfold wandb_dicts. induction ds as [|d ds IH]; [by destruct w|].
  destruct w; cbn in *; by rewrite IH.
Qed.

Lemma displays_passes w (ds : list (LogDict M)) :
  displays (flat_map (pass_events w) ds) = [].
Proof.
  unfold displays. induction ds as [|d ds IH]; [done|].
  destruct w; cbn in *; by rewrite IH.
Qed.

(** X1: whatever the run does, the tracker receives exactly the printed
    dicts, in the same order, when the module logs, and nothing when it
    does not. *)
Theorem eval_step_wandb_mirrors_print self gu gt features ratings k :
  wandb_dicts (eval_step self gu gt (features, ratings) k).1
    = if use_wandb self
      then printed_dicts (eval_step self gu gt (features, ratings) k).1
      else [].
Proof.
  destruct (eval_step_trace self gu gt features ratings k) as (disp & ds & -> & _ & Hdisp).
  pose proof (wandb_dicts_passes (use_wandb self) ds) as Hw.
  pose proof (printed_dicts_passes (use_wandb self) ds) as Hpr.
  unfold wandb_dicts, printed_dicts in *. rewrite !omap_app, Hw, Hpr.
  destruct Hdisp as [[-> ->]|(u & users & items & p & t & _ & _ & -> & _)];
    by destruct (use_wandb self).
Qed.

(** X2: the recommendation output is displayed at most once, and first:
    a run emits nothing at all, or starts with the display for the user of
    the first row, showing the ranking of that user's scores and the
    ranking of the ratings, and displays nothing after it. *)
Theorem eval_step_displays_first_row_once self gu gt features ratings k :
  (eval_step self gu gt (features, ratings) k).1 = [] ∨
  ∃ u users items p t rest,
    column 0 features = inr (u :: users) ∧ column 1 features = inr items ∧
    (eval_step self gu gt (features, ratings) k).1 = Display u p t :: rest ∧
    displays rest = [] ∧
    topk (recommender self (user_batch u items, None)) k = inr p ∧
    topk ratings k = inr t.
Proof.
  destruct (eval_step_trace self gu gt features ratings k) as (disp & ds & -> & _ & Hdisp).
  destruct Hdisp as [[-> ->]|(u & users & items & p & t & H0' & H1' & -> & Hp & Ht)];
    [by left|right].
  exists u, users, items, p, t, (flat_map (pass_events (use_wandb self)) ds).
  split_and!; [done..|apply displays_passes|done|done].
Qed.

(** X3: every dict that [eval_step] prints carries, as its eval loss, the
    value [training_step] returns on the same batch. *)
Theorem eval_step_loss_is_training_loss self gu gt features ratings k :
  Forall (λ d, ld_eval_loss d = returned (training_step self (features, ratings)))
         (printed_dicts (eval_step self gu gt (features, ratings) k).1).
Proof.
  destruct (eval_step_trace self gu gt features ratings k) as (disp & ds & -> & Hds & Hdisp).
  rewrite printed_dicts_app, printed_dicts_passes.
  destruct Hdisp as [[-> ->]|(u & users & items & p & t & _ & _ & -> & _)]; cbn; done.
Qed.

End EvalTrace.

(** ** eval_step: how it fails *)

Section EvalErrors.
Context {F M : Type} `{Score F} `{Externals F M}.
Implicit Types (self : RecommenderModule F) (st : EvalState M).

Lemma column_short_row i (features : Features) row :
  row ∈ features → length row ≤ i → column i features = inl IndexError.
Proof.
  intros Hrow Hlen. unfold column.
  destruct (mapM (λ row : list nat, row !! i) features) as [c|] eqn:Ec; [|done].
  apply mapM_Some in Ec.
  apply list_elem_of_lookup in Hrow as [j Hj].
  destruct (Forall2_lookup_l _ _ _ _ _ Ec Hj) as (x & _ & Hx).
  apply lookup_lt_Some in Hx. lia.
Qed.

Lemma column_inr_rows i (features : Features) c :
  column i features = inr c →
  length c = length features ∧ Forall (λ row, i < length row) features.
Proof.
  unfold column.
  destruct (mapM (λ row : list nat, row !! i) features) as [c'|] eqn:Ec; [|done].
  intros [= <-]. split; [symmetry; by eapply length_mapM|].
  apply mapM_Some in Ec. eapply Forall2_Forall_l; [exact Ec|].
  apply Forall_forall. intros row _ x Hx. by eapply lookup_lt_Some.
Qed.

Lemma column_inl i (features : Features) e :
  column i features = inl e →
  e = IndexError ∧ Exists (λ row, length row ≤ i) features.
Proof.
  unfold column.
  destruct (mapM (λ row : list nat, row !! i) features) as [c'|] eqn:Ec; [done|].
  intros [= <-]. split; [done|].
  induction features as [|row features IH]; [done|].
  cbn in Ec. destruct (row !! i) as [x|] eqn:Ex.
  - cbn in Ec. destruct (mapM _ features); [done|].
    apply Exists_cons_tl. by apply IH.
  - apply Exists_cons_hd. by apply lookup_ge_None.
Qed.

(** X4: a batch without rows stops at [users.max()], a batch with a row of
    fewer than two columns stops at the column slices; nothing is output in
    either case. *)
Theorem eval_step_malformed_batch self gu gt features ratings k :
  features = [] ∨ Exists (λ row, length row < 2) features →
  eval_step self gu gt (features, ratings) k
    = ([], Some (if decide (features = []) then RuntimeError_max_empty else IndexError)).
Proof.
  intros [->|Hshort]; [done|].
  rewrite decide_False by (intros ->; by apply Exists_nil in Hshort).
  apply Exists_exists in Hshort as (row & Hrow & Hlen).
  unfold eval_step, eval_run.
  destruct (column 0 features) as [e|users] eqn:E0.
  { by apply column_inl in E0 as [-> _]. }
  by rewrite (column_short_row 1 features row Hrow) by lia.
Qed.


(** Where the loop can fail: in a ranking, or in the first pass it makes
    with [roc_auc] still unassigned. *)
Lemma eval_loop_Raised self users items ratings loss k todo :
  ∀ st i e o,
    eval_loop self users items ratings loss k st i todo = Raised e o →
    (e = RuntimeError_topk ∧
     ∃ u, u ∈ todo ∧
          (length (recommender self (user_batch u items, None)) < k ∨ length ratings < k)) ∨
    (e = UnboundLocalError "roc_auc" ∧ roc_auc st = None ∧
     ∃ u todo' st1,
       todo = u :: todo' ∧ rank_user self items ratings k st i u = Done st1 ∧
       roc_auc_guard (user_item_ratings st1) = false ∧ o = out st1).
Proof.
  induction todo as [|u todo IH]; intros st i e o Hrun; [done|].
  rewrite eval_loop_cons in Hrun.
  destruct (rank_user self items ratings k st i u) as [st1|e1 o1] eqn:Erank.
  2:{ injection Hrun as <- <-. apply rank_user_Raised in Erank as (_ & -> & Hlen).
      left. split; [done|]. exists u. split; [apply list_elem_of_here|done]. }
  destruct (log_metrics self users items loss k st1) as [st2|e2 o2] eqn:Elog.
  2:{ injection Hrun as <- <-.
      apply log_metrics_Raised in Elog as (-> & -> & Hroc & Hguard).
      apply rank_user_Done in Erank as Hrank'.
      destruct Hrank' as (_ & _ & _ & _ & _ & _ & Hr & _). rewrite Hr in Hroc.
      right. split_and!; [done..|]. by exists u, todo, st1. }
  apply IH in Hrun as [(-> & u' & Hu' & Hlen)|(_ & Hnone & _)].
  - left. split; [done|]. exists u'. split; [by apply list_elem_of_further|done].
  - apply log_metrics_Done in Elog as (_ & _ & _ & d & Hd & _). congruence.
Qed.

(** X6: the unassigned [roc_auc] can stop the first pass only: when
    [eval_step] ends in an [UnboundLocalError], the variable is [roc_auc],
    the guard failed on the table of the first pass, the display of the
    first row is all that was output, and no dict was printed; once a dict
    is printed, [roc_auc] is bound for the rest of the loop. *)
Theorem eval_step_unbound_only_in_first_pass self gu gt features ratings k evs var :
  eval_step self gu gt (features, ratings) k = (evs, Some (UnboundLocalError var)) →
  var = "roc_auc"%string ∧ printed_dicts evs = [] ∧
  ∃ u users items p t,
    column 0 features = inr (u :: users) ∧ column 1 features = inr items ∧
    topk (recommender self (user_batch u items, None)) k = inr p ∧
    topk ratings k = inr t ∧
    evs = [Display u p t] ∧
    roc_auc_guard (<[u := Z.of_nat <$> p]> (np_empty gu (max_list (u :: users) + 1) k))
      = false.
Proof.
  rewrite eval_step_outcome. unfold eval_run.
  destruct (column 0 features) as [e0|users] eqn:E0.
  { intros [= _ He]. by apply column_inl in E0 as [-> _]. }
  destruct (column 1 features) as [e1|items] eqn:E1.
  { intros [= _ He]. by apply column_inl in E1 as [-> _]. }
  destruct users as [|u users]; [done|].
  destruct (eval_loop _ _ _ _ _ _ _ 0 (u :: users)) as [st|e' o] eqn:Erun; [done|].
  intros [= <- ->].
  apply eval_loop_Raised in Erun
    as [(He & _)|(He & _ & u' & todo' & st1 & [= <- <-] & Hrank & Hguard & ->)];
    [done|].
  injection He as ->.
  apply rank_user_Done in Hrank as (p & t & Hp & Ht & Hu & _ & _ & Hout).
  cbn in Hout. rewrite Hout. split_and!; [done..|].
  exists u, users, items, p, t. split_and!; [done..|].
  rewrite Hu in Hguard. exact Hguard.
Qed.

End EvalErrors.

(** An empty batch. *)
Lemma eval_step_malformed_batch_witness :
  eval_step toy_module stale stale ([], []) 1 = ([], Some RuntimeError_max_empty).
Proof.
  exact (eval_step_malformed_batch toy_module stale stale [] [] 1 (or_introl eq_refl)).
Defined.


(** The run on sevens ends in the unassigned [roc_auc]. *)
Lemma eval_step_unbound_only_in_first_pass_witness :
  "roc_auc"%string = "roc_auc"%string ∧
  printed_dicts (M := Call) [Display 1 [1] [0]] = [].
Proof.
  assert (Hrun : eval_step toy_module sevens sevens ([[1; 10]; [2; 20]], [5; 1]%Z) 1
                 = ([Display 1 [1] [0]], Some (UnboundLocalError "roc_auc")))
    by (vm_compute; reflexivity).
  destruct (eval_step_unbound_only_in_first_pass toy_module sevens sevens
              [[1; 10]; [2; 20]] [5; 1]%Z 1 [Display 1 [1] [0]] "roc_auc" Hrun)
    as (Hvar & Hpr & _).
  by split.
Defined.

(** ** eval_step: the table of predicted rows *)

Section EvalTable.
Context {F M : Type} `{Score F} `{Externals F M}.
Implicit Types (self : RecommenderModule F) (st : EvalState M).

Lemma np_empty_lookup g rows cols r :
  r < rows → np_empty g rows cols !! r = Some (g r <$> seq 0 cols).
Proof.
  intros Hr. unfold np_empty. rewrite list_lookup_fmap.
  by rewrite (proj2 (lookup_seq 0 rows r r)) by done.
Qed.

Lemma table_after_length self items k t0 us :
  length (table_after self items k t0 us) = length t0.
Proof.
  induction us as [|u us IH] using rev_ind; [done|].
  by rewrite table_after_snoc, length_insert.
Qed.

(** A row of the table after the rows of [us] are written: the predicted
    row of its index when the index is among [us], else what was there. *)
Lemma table_after_lookup self items k t0 us r :
  r < length t0 →
  table_after self items k t0 us !! r
    = if decide (r ∈ us) then Some (predicted_row self items k r) else t0 !! r.
Proof.
  intros Hr. induction us as [|u us IH] using rev_ind.
  - rewrite decide_False by apply not_elem_of_nil. done.
  - rewrite table_after_snoc. destruct (decide (u = r)) as [->|Hne].
    + rewrite list_lookup_insert_eq by (by rewrite table_after_length).
      rewrite decide_True; [done|]. apply elem_of_app. right. apply list_elem_of_here.
    + rewrite list_lookup_insert_ne by done. rewrite IH.
      destruct (decide (r ∈ us)) as [Hin|Hnin].
      * rewrite decide_True; [done|]. apply elem_of_app. by left.
      * rewrite decide_False; [done|].
        intros [?|Hr'%list_elem_of_singleton]%elem_of_app; [done|]. by subst.
Qed.

(** A loop that completes has ranked every user it met and holds the table
    of their rows. *)
Lemma eval_loop_Done_table self users items ratings loss k todo :
  ∀ st i st',
    eval_loop self users items ratings loss k st i todo = Done st' →
    user_item_ratings st' = table_after self items k (user_item_ratings st) todo ∧
    ∀ u, u ∈ todo → ∃ p, topk (recommender self (user_batch u items, None)) k = inr p.
Proof.
  induction todo as [|u todo IH]; intros st i st' Hrun.
  - injection Hrun as <-. split; [done|]. intros u Hu. by apply elem_of_nil in Hu.
  - rewrite eval_loop_cons in Hrun.
    destruct (rank_user self items ratings k st i u) as [st1|] eqn:Erank; [|done].
    destruct (log_metrics self users items loss k st1) as [st2|] eqn:Elog; [|done].
    apply rank_user_Done in Erank as (p & t & Hp & _ & Hu1 & _).
    apply log_metrics_Done in Elog as (Hu2 & _).
    destruct (IH _ _ _ Hrun) as [Htab Hranked]. split.
    + rewrite Htab, Hu2, Hu1. unfold table_after at 2. cbn [foldl].
      unfold predicted_row at 2. by rewrite Hp.
    + intros u' [->|Hu']%elem_of_cons; [eauto|by apply Hranked].
Qed.

(** X7: when the loop completes, the table of predicted rows has one row
    per user id up to the largest id of the batch, each of [k] entries; the
    row of an id that occurs in the batch is a top-k of the scores the
    model gives that user on the items of the batch, and the row of an id
    that does not occur still holds what [np.empty] left there. *)
Theorem eval_run_final_table self gu gt features ratings k users items st :
  column 0 features = inr users →
  column 1 features = inr items →
  eval_run self gu gt (features, ratings) k = Done st →
  length (user_item_ratings st) = max_list users + 1 ∧
  Forall (λ row, length row = k) (user_item_ratings st) ∧
  ∀ r, r ≤ max_list users →
    (r ∈ users →
       ∃ p, is_topk (recommender self (user_batch r items, None)) k p ∧
            user_item_ratings st !! r = Some (Z.of_nat <$> p)) ∧
    (r ∉ users → user_item_ratings st !! r = Some (gu r <$> seq 0 k)).
Proof.
  intros Hc0 Hc1 Hrun. unfold eval_run in Hrun. rewrite Hc0, Hc1 in Hrun.
  destruct users as [|u0 users]; [done|]. cbv iota in Hrun.
  apply eval_loop_Done_table in Hrun as [Htab Hranked].
  remember (u0 :: users) as us eqn:Eus. clear Eus.
  unfold eval_init in Htab. cbn [user_item_ratings] in Htab.
  assert (Hlen : length (user_item_ratings st) = max_list us + 1).
  { rewrite Htab, table_after_length. apply length_np_empty. }
  assert (Hrows : ∀ r, r ≤ max_list us →
            (r ∈ us →
               ∃ p, is_topk (recommender self (user_batch r items, None)) k p ∧
                    user_item_ratings st !! r = Some (Z.of_nat <$> p)) ∧
            (r ∉ us → user_item_ratings st !! r = Some (gu r <$> seq 0 k))).
  { intros r Hr. rewrite Htab.
    rewrite table_after_lookup by (rewrite length_np_empty; lia).
    split; intros Hin.
    - destruct (Hranked r Hin) as [p Hp]. exists p.
      split; [by apply topk_is_topk|].
      rewrite decide_True by done. unfold predicted_row. by rewrite Hp.
    - rewrite decide_False by done. apply np_empty_lookup. lia. }
  split_and!; [done| |done].
  apply Forall_lookup. intros r row Hrow.
  assert (r ≤ max_list us) as Hr by (apply lookup_lt_Some in Hrow; lia).
  destruct (Hrows r Hr) as [Hin Hout].
  destruct (decide (r ∈ us)) as [Hr'|Hr'].
  - destruct (Hin Hr') as (p & (Hk & _) & Hp). rewrite Hp in Hrow.
    injection Hrow as <-. by rewrite length_fmap.
  - rewrite (Hout Hr') in Hrow. injection Hrow as <-.
    by rewrite length_fmap, length_seq.
Qed.

End EvalTable.

(** The table at the end of the run on [two_users]: row 0, an id that no
    row of the batch carries, is the zero [np.empty] left there. *)
Lemma eval_run_final_table_witness :
  ∃ st, eval_run toy_module stale stale two_users 1 = Done st ∧
        length (user_item_ratings st) = 3 ∧
        user_item_ratings st !! 0 = Some [0%Z].
Proof.
  assert (∃ st, eval_run toy_module stale stale two_users 1 = Done st) as [st Hrun]
    by (eexists; vm_compute; reflexivity).
  destruct (eval_run_final_table toy_module stale stale
              [[1; 10]; [2; 20]] [5; 1]%Z 1 [1; 2] [10; 20] st eq_refl eq_refl Hrun)
    as (Hlen & _ & Hrows).
  exists st. split_and!; [done|done|].
  destruct (Hrows 0) as [_ Hfree]; [cbn; lia|].
  apply Hfree. intros [?|[?|[]%elem_of_nil]%elem_of_cons]%elem_of_cons; done.
Defined.

(** ** eval_step: what the dicts depend on *)

Section EvalDicts.
Context {F M : Type} `{Score F} `{Externals F M}.
Implicit Types (self : RecommenderModule F) (st : EvalState M).

(** A pass that goes through: one more dict, one more row. *)
Lemma eval_pass_Done self users items ratings loss k st i u st1 st2 :
  rank_user self items ratings k st i u = Done st1 →
  log_metrics self users items loss k st1 = Done st2 →
  ∃ d,
    printed_dicts (out st2) = printed_dicts (out st) ++ [d] ∧
    user_item_ratings st2 = <[u := predicted_row self items k u]> (user_item_ratings st) ∧
    roc_auc st2 = Some (ld_roc_auc d) ∧
    roc_auc st2 =
      (if roc_auc_guard (user_item_ratings st2)
       then Some (roc_auc_score (astype_bool <$> concat (user_item_ratings st2))
                                (astype_bool <$> concat (user_item_ratings st2)))
       else roc_auc st).
Proof.
  intros (p & t & Hp & _ & Hu1 & _ & Hr1 & Hout1)%rank_user_Done
         (Hu2 & _ & Hr2 & d & Hd & _ & _ & _ & _ & _ & _ & Hout2)%log_metrics_Done.
  exists d. split_and!.
  - rewrite Hout2, Hout1, !printed_dicts_app. cbn.
    destruct (decide (i = 0)), (use_wandb self); cbn; by rewrite ?app_nil_r.
  - rewrite Hu2, Hu1. unfold predicted_row. by rewrite Hp.
  - done.
  - by rewrite Hr2, Hu2, Hr1.
Qed.

Lemma eval_loop_roc_auc self users items ratings loss k t0 todo :
  ∀ processed st st',
    users = processed ++ todo →
    user_item_ratings st = table_after self items k t0 processed →
    length (printed_dicts (out st)) = length processed →
    roc_auc st = ld_roc_auc <$> last (printed_dicts (out st)) →
    roc_auc_chain self users items k t0 (printed_dicts (out st)) →
    eval_loop self users items ratings loss k st (length processed) todo = Done st' →
    roc_auc_chain self users items k t0 (printed_dicts (out st')).
Proof.
  induction todo as [|u todo IH]; intros processed st st' Husers Htab Hlen Hroc Hchain Hrun.
  - by injection Hrun as <-.
  - rewrite eval_loop_cons in Hrun.
    destruct (rank_user self items ratings k st (length processed) u) as [st1|] eqn:Erank;
      [|done].
    destruct (log_metrics self users items loss k st1) as [st2|] eqn:Elog; [|done].
    destruct (eval_pass_Done _ _ _ _ _ _ _ _ _ _ _ Erank Elog)
      as (d & Hpr & Htab2 & Hsome & Hnew).
    assert (Htab' : user_item_ratings st2 = table_after self items k t0 (processed ++ [u]))
      by (by rewrite table_after_snoc, Htab2, Htab).
    replace (S (length processed)) with (length (processed ++ [u])) in Hrun
      by (rewrite length_app; cbn; lia).
    apply (IH (processed ++ [u]) st2 st'); [by rewrite <-app_assoc|done| | | |done].
    + rewrite Hpr, !length_app, Hlen. done.
    + by rewrite Hpr, last_snoc.
    + intros j dj dj' Hj Hj' table. rewrite Hpr in Hj, Hj'.
      destruct (decide (S j < length processed)) as [Hlt|Hge].
      * rewrite lookup_app_l in Hj by lia. rewrite lookup_app_l in Hj' by lia.
        exact (Hchain j dj dj' Hj Hj').
      * assert (S j = length processed) as Hj_eq.
        { apply lookup_lt_Some in Hj'. rewrite length_app, Hlen in Hj'. cbn in Hj'. lia. }
        rewrite lookup_app_l in Hj by lia.
        rewrite lookup_app_r, Hlen, Hj_eq, Nat.sub_diag in Hj' by lia.
        injection Hj' as <-.
        assert (last (printed_dicts (out st)) = Some dj) as Hlast.
        { rewrite last_lookup, Hlen, <-Hj_eq. done. }
        assert (table = user_item_ratings st2) as ->.
        { unfold table. rewrite Htab', Husers, Hj_eq.
          change (processed ++ u :: todo) with (processed ++ [u] ++ todo).
          rewrite app_assoc.
          by rewrite take_app_length' by (rewrite length_app; cbn; lia). }
        rewrite Hsome, Hroc, Hlast in Hnew. cbn in Hnew.
        destruct (roc_auc_guard (user_item_ratings st2)); by injection Hnew.
Qed.

(** X8: in a run that completes, the [roc_auc] entry of a dict is a fresh
    score when the guard holds on the table of its pass, and otherwise the
    entry of the dict before it, carried over unchanged. *)
Theorem eval_step_roc_auc_carried_over self gu gt features ratings k users items st :
  column 0 features = inr users →
  column 1 features = inr items →
  eval_run self gu gt (features, ratings) k = Done st →
  roc_auc_chain self users items k (np_empty gu (max_list users + 1) k)
    (printed_dicts (out st)).
Proof.
  intros Hc0 Hc1 Hrun. unfold eval_run in Hrun. rewrite Hc0, Hc1 in Hrun.
  destruct users as [|u0 users]; [done|]. cbv iota in Hrun.
  eapply (eval_loop_roc_auc self (u0 :: users) items ratings _ k _ (u0 :: users) []
            (eval_init gu gt (u0 :: users) k));
    [reflexivity|reflexivity|reflexivity|reflexivity| |exact Hrun].
  intros j d d' Hj. cbn in Hj. by rewrite lookup_nil in Hj.
Qed.

(** One pass on two batches that differ in their ratings only. *)
Lemma eval_pass_ratings self users items (ratings ratings' : list F) loss loss' k st st' i u :
  length ratings = length ratings' →
  user_item_ratings st = user_item_ratings st' →
  roc_auc st = roc_auc st' →
  ranking_metrics <$> printed_dicts (out st) = ranking_metrics <$> printed_dicts (out st') →
  match eval_iteration self users items ratings loss k st i u,
        eval_iteration self users items ratings' loss' k st' i u with
  | Done a, Done b =>
      user_item_ratings a = user_item_ratings b ∧ roc_auc a = roc_auc b ∧
      ranking_metrics <$> printed_dicts (out a) = ranking_metrics <$> printed_dicts (out b)
  | Raised e o, Raised e' o' =>
      e = e' ∧ ranking_metrics <$> printed_dicts o = ranking_metrics <$> printed_dicts o'
  | _, _ => False
  end.
Proof.
  intros Hlen Hu Hr Hpr. unfold eval_iteration, rank_user.
  destruct (topk (recommender self (user_batch u items, None)) k) as [e|p]; [done|].
  destruct (decide (k ≤ length ratings)) as [Hk|Hk].
  2:{ rewrite (topk_None ratings k), (topk_None ratings' k) by lia. done. }
  destruct (topk_Some ratings k Hk) as [t ->].
  destruct (topk_Some ratings' k) as [t' ->]; [lia|].
  unfold log_metrics. cbv zeta.
  cbn [user_item_ratings roc_auc out true_item_ratings]. rewrite <-Hu, <-Hr.
  destruct (two_classes _); cbn [andb]; [|destruct (roc_auc st) as [r|]];
    cbn [user_item_ratings roc_auc out true_item_ratings].
  1,2: (split; [done|]); (split; [done|]);
       rewrite !printed_dicts_app, !fmap_app, Hpr;
       destruct (decide (i = 0)), (use_wandb self); done.
  split; [done|].
  rewrite !printed_dicts_app, !fmap_app, Hpr. by destruct (decide (i = 0)).
Qed.

Lemma eval_loop_ratings self users items (ratings ratings' : list F) loss loss' k todo :
  length ratings = length ratings' →
  ∀ st st' i,
    user_item_ratings st = user_item_ratings st' →
    roc_auc st = roc_auc st' →
    ranking_metrics <$> printed_dicts (out st) = ranking_metrics <$> printed_dicts (out st') →
    exn_of (eval_loop self users items ratings loss k st i todo)
      = exn_of (eval_loop self users items ratings' loss' k st' i todo) ∧
    ranking_metrics <$> printed_dicts (events_of (eval_loop self users items ratings loss k st i todo))
      = ranking_metrics <$>
          printed_dicts (events_of (eval_loop self users items ratings' loss' k st' i todo)).
Proof.
  intros Hlen. induction todo as [|u todo IH]; intros st st' i Hu Hr Hpr; [done|].
  cbn [eval_loop].
  pose proof (eval_pass_ratings self users items ratings ratings' loss loss' k st st' i u
                Hlen Hu Hr Hpr) as Hpass.
  destruct (eval_iteration self users items ratings loss k st i u) as [a|e o],
           (eval_iteration self users items ratings' loss' k st' i u) as [b|e' o'];
    try done.
  - destruct Hpass as (Hu' & Hr' & Hpr'). by apply IH.
  - destruct Hpass as [-> Hpr']. done.
Qed.

(** X9: the ratings of the batch reach the dicts through the eval loss
    only: on two batches with the same features and as many ratings,
    [eval_step] ends the same way and prints dicts with the same ndcg,
    novelty, coverages, personalization and roc_auc. *)
Theorem eval_step_metrics_ignore_ratings self gu gt gt' features
    (ratings ratings' : list F) k :
  length ratings = length ratings' →
  (eval_step self gu gt (features, ratings) k).2
    = (eval_step self gu gt' (features, ratings') k).2 ∧
  ranking_metrics <$> printed_dicts (eval_step self gu gt (features, ratings) k).1
    = ranking_metrics <$> printed_dicts (eval_step self gu gt' (features, ratings') k).1.
Proof.
  intros Hlen. rewrite !eval_step_outcome. cbn [fst snd]. unfold eval_run.
  destruct (column 0 features) as [e|users]; [done|].
  destruct (column 1 features) as [e|items]; [done|].
  destruct users as [|u users]; [done|].
  by apply eval_loop_ratings.
Qed.

End EvalDicts.

(** The run on [two_users]: in the second pass the guard holds, and the
    score is a fresh one. *)
Lemma eval_step_roc_auc_carried_over_witness :
  ∃ st, eval_run toy_module stale stale two_users 1 = Done st ∧
        roc_auc_chain toy_module [1; 2] [10; 20] 1 (np_empty stale 3 1)
          (printed_dicts (out st)).
Proof.
  assert (∃ st, eval_run toy_module stale stale two_users 1 = Done st) as [st Hrun]
    by (eexists; vm_compute; reflexivity).
  exists st. split; [done|].
  exact (eval_step_roc_auc_carried_over toy_module stale stale
           [[1; 10]; [2; 20]] [5; 1]%Z 1 [1; 2] [10; 20] st eq_refl eq_refl Hrun).
Defined.

(** The ratings of [two_users], and the same batch with the ratings swapped. *)
Lemma eval_step_metrics_ignore_ratings_witness :
  ranking_metrics <$> printed_dicts (eval_step toy_module stale stale two_users 1).1
    = ranking_metrics <$>
        printed_dicts (eval_step toy_module stale stale ([[1; 10]; [2; 20]], [1; 5]%Z) 1).1.
Proof.
  exact (proj2 (eval_step_metrics_ignore_ratings toy_module stale stale stale
                  [[1; 10]; [2; 20]] [5; 1]%Z [1; 5]%Z 1 eq_refl)).
Defined.

(** ** get_feature_embeddings: when it returns *)

Section EmbeddingsReturn.
Context {F : Type}.
Implicit Types (self : RecModel F) (features : Features).

(** A column that the loop embeds: its table exists and yields a vector
    for every example. *)
Lemma embed_feature_inr self features i name d col :
  embed_feature self features i name = inr (d, col) →
  ∃ emb, emb_dict self !! name = Some emb ∧ emb_dim emb = d ∧
         Forall2 (λ ex v, vector_at self ex (i, name) = Some v) features col.
Proof.
  unfold embed_feature, column, embed.
  destruct (emb_dict self !! name) as [emb|] eqn:Eemb; [|done].
  destruct (mapM (λ row : list nat, row !! i) features) as [ids|] eqn:Eids; [|done].
  destruct (mapM (λ id, weight emb !! id) ids) as [vs|] eqn:Evs; [|done].
  intros [= <- <-]. exists emb. split_and!; [done..|].
  apply mapM_Some in Eids. apply mapM_Some in Evs.
  revert vs Evs. induction Eids as [|ex id features ids Hid _ IH]; intros vs Evs.
  - apply Forall2_nil_inv_l in Evs as ->. constructor.
  - apply Forall2_cons_inv_l in Evs as (v & vs' & Hv & Hvs' & ->).
    constructor; [|by apply IH].
    unfold vector_at. cbn. by rewrite Eemb, Hid.
Qed.

Lemma Forall2_columns_nil {A B C} (R : A → B → C → Prop) (l : list A) :
  Forall2 (λ a (vs : list C), Forall2 (R a) [] vs) l (replicate (length l) []).
Proof. induction l; constructor; [constructor|done]. Qed.

Lemma Forall2_columns_cons {A B C} (R : A → B → C → Prop) (l : list A) c cs col vss :
  Forall2 (λ a v, R a c v) l col →
  Forall2 (λ a (vs : list C), Forall2 (R a) cs vs) l vss →
  Forall2 (λ a vs, Forall2 (R a) (c :: cs) vs) l (zip_with cons col vss).
Proof.
  intros Hcol. revert vss. induction Hcol as [|a v l col Hv _ IH]; intros vss Hvss.
  - apply Forall2_nil_inv_l in Hvss as ->. constructor.
  - apply Forall2_cons_inv_l in Hvss as (vs & vss' & Hvs & Hvss' & ->).
    cbn. constructor; [by constructor|by apply IH].
Qed.

Lemma embed_loop_inr self features names :
  ∀ i lines embeddings,
    embed_loop self features i names = (lines, inr embeddings) →
    (∀ name, name ∈ names → is_Some (emb_dict self !! name)) ∧
    length embeddings = length names ∧
    Forall2 (λ ex vs,
               Forall2 (λ c v, vector_at self ex c = Some v)
                       (zip (seq i (length names)) names) vs)
            features (stack_dim1 (length features) (embeddings.*2)).
Proof.
  induction names as [|name names IH]; intros i lines embeddings Hloop.
  - injection Hloop as <- <-. split_and!; [|done|].
    + intros name Hname. by apply elem_of_nil in Hname.
    + apply (Forall2_columns_nil (λ ex c v, vector_at self ex c = Some v)).
  - cbn [embed_loop] in Hloop.
    destruct (embed_feature self features i name) as [e|[d col]] eqn:Efeat; [done|].
    destruct (embed_loop self features (S i) names) as [lines' [e|embeddings']] eqn:Erest;
      [done|].
    injection Hloop as <- <-.
    apply embed_feature_inr in Efeat as (emb & Hemb & _ & Hcol).
    destruct (IH _ _ _ Erest) as (Hdict & Hlen & Hvss). split_and!.
    + intros name' [->|Hname']%elem_of_cons; [eauto|by apply Hdict].
    + cbn. by rewrite Hlen.
    + cbn [length seq zip zip_with fmap list_fmap stack_dim1 snd].
      by apply (Forall2_columns_cons (λ ex c v, vector_at self ex c = Some v)).
Qed.

(** X10: whenever the function returns a tensor, with either value of
    [concat], the model has at least one embedding column, every column has
    its table, every example of the batch has an id in range for every
    column, and the entries of the tensor are the rows of the examples one
    after the other. *)
Theorem get_feature_embeddings_returns self features r concat t :
  (get_feature_embeddings self (features, r) concat).2 = inr t →
  emb_columns self ≠ [] ∧
  (∀ name, name ∈ emb_columns self → is_Some (emb_dict self !! name)) ∧
  ∃ rows, mapM (example_row self) features = Some rows ∧ data t = List.concat rows.
Proof.
  unfold get_feature_embeddings, stack_feature_embeddings.
  destruct (embed_loop self features 0 (emb_columns self)) as [lines [e|embeddings]] eqn:Eloop;
    [done|].
  cbn [snd]. intros Ht.
  apply embed_loop_inr in Eloop as (Hdict & Hlen & Hvss).
  unfold torch_stack_dim1 in Ht.
  destruct embeddings as [|[d0 col0] embeddings'] eqn:E; [done|]. rewrite <-E in *.
  destruct (forallb _ embeddings); [|done].
  assert (data t = List.concat (@List.concat F <$> stack_dim1 (length features) (embeddings.*2)))
    as Hdata.
  { destruct concat; [|by injection Ht as <-].
    unfold view_rows in Ht. case_decide; [|done]. by injection Ht as <-. }
  split_and!; [|done|].
  - intros Hnil. rewrite Hnil, E in Hlen. done.
  - exists (@List.concat F <$> stack_dim1 (length features) (embeddings.*2)).
    split; [|done]. apply mapM_Some, Forall2_fmap_r.
    eapply Forall2_impl; [exact Hvss|]. intros ex vs Hvs. cbn.
    unfold example_row, example_vectors, enumerate.
    by rewrite (proj2 (mapM_Some _ _ _) Hvs).
Qed.

Lemma column_take (features : Features) m i :
  i < m → column i (take m <$> features) = column i features.
Proof.
  intros Hi. unfold column.
  replace (mapM (λ row : list nat, row !! i) (take m <$> features))
    with (mapM (λ row : list nat, row !! i) features); [done|].
  induction features as [|row features IH]; [done|].
  cbn. by rewrite lookup_take_lt, IH by done.
Qed.

Lemma embed_loop_take self features m names :
  ∀ i, i + length names ≤ m →
    embed_loop self (take m <$> features) i names = embed_loop self features i names.
Proof.
  induction names as [|name names IH]; intros i Hi; [done|].
  cbn [embed_loop length] in *. unfold embed_feature.
  rewrite column_take by lia. rewrite IH by lia. by rewrite length_fmap.
Qed.

(** X11: the function reads only the first [m] columns of the features, [m]
    the number of embedding columns: further columns of the batch change
    neither the result nor what is printed. *)
Theorem get_feature_embeddings_ignores_extra_columns self features r concat :
  get_feature_embeddings self (take (length (emb_columns self)) <$> features, r) concat
    = get_feature_embeddings self (features, r) concat.
Proof.
  unfold get_feature_embeddings, stack_feature_embeddings.
  by rewrite embed_loop_take, length_fmap by done.
Qed.

End EmbeddingsReturn.

(** A batch that [toy_model] embeds. *)
Lemma get_feature_embeddings_returns_witness :
  ∃ rows, mapM (example_row toy_model) [[0; 1]] = Some rows ∧
          [1; 2; 7; 8]%Z = List.concat rows.
Proof.
  destruct (get_feature_embeddings_returns toy_model [[0; 1]] None false
              {| shape := [2; 2]; data := [1; 2; 7; 8]%Z |})
    as (_ & _ & rows & Hrows & Hdata); [vm_compute; reflexivity|].
  by exists rows.
Defined.

(** ** get_feature_embeddings: how it fails *)

Section EmbeddingsErrors.
Context {F : Type}.
Implicit Types (self : RecModel F) (features : Features).

Lemma embed_feature_inl self features i name e :
  embed_feature self features i name = inl e →
  (e = KeyError name ∧ emb_dict self !! name = None) ∨
  (e = IndexError ∧ Exists (λ ex, vector_at self ex (i, name) = None) features).
Proof.
  unfold embed_feature, column, embed.
  destruct (emb_dict self !! name) as [emb|] eqn:Eemb; [|intros [= <-]; by left].
  destruct (mapM (λ row : list nat, row !! i) features) as [ids|] eqn:Eids.
  - destruct (mapM (λ id, weight emb !! id) ids) as [vs|] eqn:Evs; [done|].
    intros [= <-]. right. split; [done|].
    apply mapM_Some in Eids. apply mapM_None_1 in Evs.
    induction Eids as [|ex id features ids Hid _ IH]; [by apply Exists_nil in Evs|].
    apply Exists_cons in Evs as [Hv|Hrest].
    + apply Exists_cons_hd. unfold vector_at. cbn. by rewrite Eemb, Hid.
    + apply Exists_cons_tl. by apply IH.
  - intros [= <-]. right. split; [done|].
    apply mapM_None_1 in Eids. eapply Exists_impl; [exact Eids|].
    intros ex Hex. unfold vector_at. cbn in *. by rewrite Eemb, Hex.
Qed.

Lemma embed_loop_inl self features names :
  ∀ i lines e,
    embed_loop self features i names = (lines, inl e) →
    (∃ name, name ∈ names ∧ e = KeyError name ∧ emb_dict self !! name = None) ∨
    (e = IndexError ∧
     ∃ c, c ∈ zip (seq i (length names)) names ∧
          Exists (λ ex, vector_at self ex c = None) features).
Proof.
  induction names as [|name names IH]; intros i lines e Hloop; [done|].
  cbn [embed_loop] in Hloop.
  destruct (embed_feature self features i name) as [e0|[d col]] eqn:Efeat.
  - injection Hloop as <- <-.
    apply embed_feature_inl in Efeat as [[-> Hnone]|[-> Hex]].
    + left. exists name. split_and!; [apply list_elem_of_here|done..].
    + right. split; [done|]. exists (i, name). split; [apply list_elem_of_here|done].
  - destruct (embed_loop self features (S i) names) as [lines' [e'|embeddings']] eqn:Erest;
      [|done].
    injection Hloop as <- <-.
    apply IH in Erest as [(name' & Hin & -> & Hnone)|[-> (c & Hc & Hex)]].
    + left. exists name'. split_and!; [by apply list_elem_of_further|done..].
    + right. split; [done|]. exists c. split; [|done].
      cbn [length seq zip zip_with]. by apply list_elem_of_further.
Qed.

(** The dimensions the loop records are those of the tables of the columns. *)
Lemma embed_loop_dims self features names :
  ∀ i lines embeddings,
    embed_loop self features i names = (lines, inr embeddings) →
    Forall2 (λ name e, ∃ emb, emb_dict self !! name = Some emb ∧ emb_dim emb = e.1)
            names embeddings.
Proof.
  induction names as [|name names IH]; intros i lines embeddings Hloop.
  - injection Hloop as <- <-. constructor.
  - cbn [embed_loop] in Hloop.
    destruct (embed_feature self features i name) as [e|[d col]] eqn:Efeat; [done|].
    destruct (embed_loop self features (S i) names) as [lines' [e|embeddings']] eqn:Erest;
      [done|].
    injection Hloop as <- <-.
    apply embed_feature_inr in Efeat as (emb & Hemb & Hd & _).
    constructor; [by exists emb|by eapply IH].
Qed.

(** X12: the function raises only these: a KeyError for an embedding
    column without a table; an IndexError when some example has no id, or
    an id out of range, for some column; the error of [torch.stack] when
    the model has no embedding column or two of its tables differ in
    dimension; and, with [concat=True] only, the error of [view] when
    [emb_in_size] is zero or does not divide the number of entries that
    [concat=False] returns. *)
Theorem get_feature_embeddings_exceptions self features r concat e :
  (get_feature_embeddings self (features, r) concat).2 = inl e →
  (∃ name, e = KeyError name ∧ name ∈ emb_columns self ∧ emb_dict self !! name = None) ∨
  (e = IndexError ∧ ∃ ex, ex ∈ features ∧ example_row self ex = None) ∨
  (e = RuntimeError_stack ∧
   (emb_columns self = [] ∨
    ∃ name1 name2 emb1 emb2,
      name1 ∈ emb_columns self ∧ name2 ∈ emb_columns self ∧
      emb_dict self !! name1 = Some emb1 ∧ emb_dict self !! name2 = Some emb2 ∧
      emb_dim emb1 ≠ emb_dim emb2)) ∨
  (e = RuntimeError_view ∧ concat = true ∧
   ∃ t, (get_feature_embeddings self (features, r) false).2 = inr t ∧
        ¬ (emb_in_size self ≠ 0 ∧ length (data t) `mod` emb_in_size self = 0)).
Proof.
  unfold get_feature_embeddings, stack_feature_embeddings.
  destruct (embed_loop self features 0 (emb_columns self)) as [lines [e0|embeddings]] eqn:Eloop.
  - cbn [snd]. intros [= <-].
    apply embed_loop_inl in Eloop as [(name & Hin & -> & Hnone)|[-> (c & Hc & Hex)]].
    + left. by exists name.
    + right. left. split; [done|].
      apply Exists_exists in Hex as (ex & Hin & Hnone). exists ex. split; [done|].
      unfold example_row, example_vectors, enumerate.
      rewrite (mapM_None_2 (vector_at self ex)); [done|].
      apply Exists_exists. by exists c.
  - cbn [snd]. pose proof (embed_loop_dims _ _ _ _ _ _ Eloop) as Hdims.
    unfold torch_stack_dim1.
    destruct embeddings as [|[d0 col0] embeddings'] eqn:E.
    { intros [= <-]. right. right. left. split; [done|]. left.
      by apply Forall2_nil_inv_r in Hdims. }
    rewrite <-E in *.
    destruct (forallb (λ e1 : nat * list (list F), e1.1 =? d0) embeddings) eqn:Eall.
    + destruct concat; [|done]. unfold view_rows, squeeze. cbn [data].
      case_decide as Hview; [done|]. intros [= <-].
      right. right. right. split_and!; [done..|]. eexists. split; [done|]. done.
    + intros [= <-]. right. right. left. split; [done|]. right.
      assert (∃ e2, e2 ∈ embeddings ∧ e2.1 ≠ d0) as (e2 & Hin2 & Hne).
      { destruct (decide (Forall (λ e2 : nat * list (list F), e2.1 = d0) embeddings))
          as [Hall|Hnot].
        - exfalso. rewrite <-not_true_iff_false in Eall. apply Eall.
          apply forallb_forall. intros x Hx%list_elem_of_In.
          rewrite Forall_forall in Hall. apply Nat.eqb_eq. by apply Hall.
        - apply not_Forall_Exists in Hnot; [|intros x; apply _].
          apply Exists_exists in Hnot as (e2 & ? & ?). by exists e2. }
      apply list_elem_of_lookup in Hin2 as [j2 Hj2].
      destruct (Forall2_lookup_r _ _ _ _ _ Hdims Hj2) as (name2 & Hn2 & emb2 & Hemb2 & Hd2).
      assert (embeddings !! 0 = Some (d0, col0)) as Hj1 by (by rewrite E).
      destruct (Forall2_lookup_r _ _ _ _ _ Hdims Hj1) as (name1 & Hn1 & emb1 & Hemb1 & Hd1).
      exists name1, name2, emb1, emb2.
      split_and!; [by eapply list_elem_of_lookup_2|by eapply list_elem_of_lookup_2|done..|].
      cbn in Hd1. congruence.
Qed.

End EmbeddingsErrors.

(** An id outside the table of its column. *)
Lemma get_feature_embeddings_exceptions_witness :
  ∃ ex, ex ∈ [[0; 5]] ∧ example_row toy_model ex = None.
Proof.
  destruct (get_feature_embeddings_exceptions toy_model [[0; 5]] None true IndexError)
    as [(name & He & _)|[(_ & Hex)|[(He & _)|(He & _)]]];
    [vm_compute; reflexivity|discriminate He|exact Hex|discriminate He..].
Defined.

(** ** Params.default_values *)

(** X13: [default_values] returns the fifteen configuration attributes and
    nothing else (neither the classmethod itself nor an attribute whose name
    starts with two underscores), each with its value, the three enum
    members replaced by their names. *)
Theorem default_values_are_the_attributes (inherited : list (string * PyValue)) (P : Params) :
  Forall (λ a, String.prefix "__" a.1 = true) inherited →
  default_values inherited P =
    [ ("batch_size", PyInt (batch_size P));
      ("dataset_source", PyName (Member_DatasetSource (dataset_source P)));
      ("do_eval", PyBool (do_eval P));
      ("dropout", PyFloat (dropout P));
      ("embedding_dim", PyInt (embedding_dim P));
      ("eval_every", PyInt (eval_every P));
      ("eval_size", PyInt (eval_size P));
      ("learning_rate", PyFloat (learning_rate P));
      ("max_batches", PyInt (max_batches P));
      ("max_rows", PyInt (max_rows P));
      ("max_users", match max_users P with Some n => PyInt n | None => PyNone end);
      ("model_architecture", PyName (Member_ModelArchitecture (model_architecture P)));
      ("num_epochs", PyInt (num_epochs P));
      ("rating_format", PyName (Member_RatingFormat (rating_format P)));
      ("weight_decay", PyFloat (weight_decay P)) ]%string ∧
  Forall (λ a, isinstance_IntEnum a.2 = false ∧ callable a.2 = false)
         (default_values inherited P).
Proof.
  intros Hin.
  assert (Hdrop : filter (λ a : string * PyValue,
                            negb (callable a.2) && negb (String.prefix "__" a.1) = true)
                         inherited = []).
  { induction Hin as [|a inherited Ha _ IH]; [done|].
    rewrite filter_cons_False; [done|].
    rewrite Ha. by destruct (callable a.2). }
  assert (Heq : default_values inherited P =
    [ ("batch_size", PyInt (batch_size P));
      ("dataset_source", PyName (Member_DatasetSource (dataset_source P)));
      ("do_eval", PyBool (do_eval P));
      ("dropout", PyFloat (dropout P));
      ("embedding_dim", PyInt (embedding_dim P));
      ("eval_every", PyInt (eval_every P));
      ("eval_size", PyInt (eval_size P));
      ("learning_rate", PyFloat (learning_rate P));
      ("max_batches", PyInt (max_batches P));
      ("max_rows", PyInt (max_rows P));
      ("max_users", match max_users P with Some n => PyInt n | None => PyNone end);
      ("model_architecture", PyName (Member_ModelArchitecture (model_architecture P)));
      ("num_epochs", PyInt (num_epochs P));
      ("rating_format", PyName (Member_RatingFormat (rating_format P)));
      ("weight_decay", PyFloat (weight_decay P)) ]%string).
  { unfold default_values, Params_dir. cbv zeta. rewrite filter_app, Hdrop.
    destruct (max_users P); reflexivity. }
  split; [done|]. rewrite Heq.
  repeat (constructor; [by destruct (max_users P)|]). constructor.
Qed.

(** The notebook's parameters, on an object with three inherited attributes. *)
Lemma default_values_are_the_attributes_witness :
  length (default_values
            [("__class__", PyCallable); ("__doc__", PyNone); ("__module__", PyNone)]%string
            Params_defaults) = 15.
Proof.
  destruct (default_values_are_the_attributes
              [("__class__", PyCallable); ("__doc__", PyNone); ("__module__", PyNone)]%string
              Params_defaults) as [-> _]; [|reflexivity].
  repeat constructor.
Defined.

(** ** eval_step: the popularity counts and the guard *)

Lemma item_popularity_snoc (items : list nat) (item : nat) :
  item_popularity (items ++ [item])
    = <[item := S (default 0 (item_popularity items !! item))]> (item_popularity items).
Proof. unfold item_popularity. by rewrite foldl_app. Qed.

(** X14: [item_popularity] has one key per item of the batch and maps it to
    the number of rows of the batch that carry the item. *)
Theorem item_popularity_counts (items : list nat) (item : nat) :
  item_popularity items !! item =
    if decide (item ∈ items)
    then Some (length (filter (λ x, x = item) items))
    else None.
Proof.
  induction items as [|x items IH] using rev_ind.
  - rewrite decide_False by apply not_elem_of_nil. done.
  - rewrite item_popularity_snoc, filter_app, length_app.
    destruct (decide (x = item)) as [->|Hne].
    + rewrite lookup_insert_eq, IH.
      rewrite (decide_True (P := item ∈ items ++ [item]))
        by (apply elem_of_app; right; apply list_elem_of_here).
      rewrite filter_cons_True, filter_nil by done. cbn.
      destruct (decide (item ∈ items)) as [Hin|Hnin]; cbn; [f_equal; lia|].
      f_equal. assert (filter (λ y, y = item) items = []) as ->; [|done].
      destruct (filter (λ y, y = item) items) as [|y ys] eqn:Ef; [done|].
      assert (y ∈ filter (λ y, y = item) items) as Hy
        by (rewrite Ef; apply list_elem_of_here).
      apply list_elem_of_filter in Hy as [-> Hy]. done.
    + rewrite lookup_insert_ne, IH by done.
      rewrite filter_cons_False, filter_nil by done. cbn. rewrite Nat.add_0_r.
      destruct (decide (item ∈ items)) as [Hin|Hnin].
      * rewrite (decide_True (P := item ∈ items ++ [x])) by (apply elem_of_app; by left).
        done.
      * rewrite (decide_False (P := item ∈ items ++ [x])); [done|].
        intros [?|?%list_elem_of_singleton]%elem_of_app; [done|]. by subst.
Qed.

(** X15: the guard of [roc_auc] holds exactly when the table of predicted
    rows holds a zero cell and a non-zero cell; the cells being batch
    positions (or leftovers of [np.empty]), the two classes are position 0
    and every other position. *)
Theorem roc_auc_guard_zero_and_nonzero (table : list (list Z)) :
  roc_auc_guard table = true ↔
  (∃ x, x ∈ concat table ∧ x = 0%Z) ∧ (∃ x, x ∈ concat table ∧ x ≠ 0%Z).
Proof.
  unfold roc_auc_guard, two_classes.
  rewrite !andb_true_iff, !existsb_exists. split.
  - intros [[(b & Hb%list_elem_of_In & Hid) (c & Hc%list_elem_of_In & Hneg)] _].
    apply list_elem_of_fmap in Hb as (x & -> & Hx).
    apply list_elem_of_fmap in Hc as (y & -> & Hy).
    unfold astype_bool, id in *. split.
    + exists y. split; [done|]. apply negb_true_iff, negb_false_iff, Z.eqb_eq in Hneg. done.
    + exists x. split; [done|]. apply negb_true_iff, Z.eqb_neq in Hid. done.
  - intros [(y & Hy & ->) (x & Hx & Hne)].
    assert (∃ b, In b (astype_bool <$> concat table) ∧ id b = true) as Hb.
    { exists (astype_bool x). split; [apply list_elem_of_In, list_elem_of_fmap; eauto|].
      unfold astype_bool, id. by apply negb_true_iff, Z.eqb_neq. }
    assert (∃ b, In b (astype_bool <$> concat table) ∧ negb b = true) as Hc.
    { exists (astype_bool 0). split; [apply list_elem_of_In, list_elem_of_fmap; eauto|done]. }
    done.
Qed.
